(** * fin-extract: the table-reconstruction and number-normalisation core

    A shallow embedding of [shared/skills/fin-extract/scripts/extract_tables.py]
    and the properties its specification states about it.

    - [PyStr]: Python [str] values as lists of Unicode code points, with the
      [str] methods the script calls.
    - [Re]: a backtracking matcher for the fragment of Python's [re] syntax the
      script's patterns are written in.
    - [Dec]: [decimal.Decimal] under the default context (28 significant
      digits, half-even rounding, [Emax = 999999]).
    - [ExtractTables]: the functions of the script, in source order.

    The second half of the file states and proves the properties. *)

From Stdlib Require Import List NArith ZArith QArith Qround Lia Bool String Ascii.
From Stdlib Require Import Permutation Sorted.
Import ListNotations.

Set Implicit Arguments.

(* ================================================================== *)
(** * Python strings *)
(* ================================================================== *)

Module PyStr.

Local Open Scope N_scope.

(** A character is its Unicode code point; a [str] is a sequence of them. *)
Definition char := N.
Definition str := list char.

Definition ord (a : ascii) : char := N_of_ascii a.

(** [lit "abc"] is the Python literal ["abc"] (ASCII literals only; other
    characters are written as code points). *)
Fixpoint lit (s : string) : str :=
  match s with
  | EmptyString => []
  | String a t => ord a :: lit t
  end.

Definition LF : char := 10.
Definition SPACE : char := 32.
Definition NBSP : char := 160.          (* U+00A0 *)
Definition HYPHEN : char := 45.         (* "-" *)
Definition COMMA : char := 44.
Definition DOT : char := 46.
Definition MINUS_SIGN : char := 8722.   (* U+2212 *)
Definition EN_DASH : char := 8211.      (* U+2013 *)
Definition EM_DASH : char := 8212.      (* U+2014 *)

Definition between (lo hi c : char) : bool := (lo <=? c) && (c <=? hi).

(** [str.isspace] on one character, which is also the class [\s] of [re] on
    [str] patterns: the 29 code points CPython treats as whitespace. *)
Definition isspace (c : char) : bool :=
  between 9 13 c || between 28 32 c || (c =? 133) || (c =? 160)
  || (c =? 5760) || between 8192 8202 c || (c =? 8232) || (c =? 8233)
  || (c =? 8239) || (c =? 8287) || (c =? 12288).

(** The code points of the digit zero of every decimal-digit block of the
    Unicode database (general category Nd, Unicode 14.0 as shipped with
    CPython 3.11); each block is ten consecutive code points, zero to nine. *)
Definition nd_zeros : list char :=
  [48; 1632; 1776; 1984; 2406; 2534; 2662; 2790; 2918; 3046; 3174; 3302;
   3430; 3558; 3664; 3792; 3872; 4160; 4240; 6112; 6160; 6470; 6608; 6784;
   6800; 6992; 7088; 7232; 7248; 42528; 43216; 43264; 43472; 43504; 43600;
   44016; 65296; 66720; 68912; 69734; 69872; 69942; 70096; 70384; 70736;
   70864; 71248; 71360; 71472; 71904; 72016; 72784; 73040; 73120; 92768;
   92864; 93008; 120782; 120792; 120802; 120812; 120822; 123200; 123632;
   125264; 130032].

(** [str.isdecimal] on one character, which is the class [\d] of [re] on
    [str] patterns. *)
Definition isdecimal (c : char) : bool :=
  existsb (fun z => between z (z + 9) c) nd_zeros.

(** The value of a decimal digit, as [int] and [Decimal] read it. *)
Definition digit_value (c : char) : N :=
  match find (fun z => between z (z + 9) c) nd_zeros with
  | Some z => c - z
  | None => 0
  end.

(** ASCII digits: [c.isascii() and c.isdigit()]. *)
Definition is_ascii_digit (c : char) : bool := between 48 57 c.

Fixpoint dropwhile (p : char -> bool) (s : str) : str :=
  match s with
  | [] => []
  | c :: t => if p c then dropwhile p t else s
  end.

Definition lstrip_with (p : char -> bool) (s : str) : str := dropwhile p s.
Definition rstrip_with (p : char -> bool) (s : str) : str :=
  rev (dropwhile p (rev s)).

(** [s.strip()] *)
Definition strip (s : str) : str := rstrip_with isspace (lstrip_with isspace s).

(** [s.rstrip(chars)] *)
Definition rstrip_chars (chars : str) (s : str) : str :=
  rstrip_with (fun c => existsb (N.eqb c) chars) s.

(** [s.replace(old, new)] for a one-character [old]. *)
Definition replace (old : char) (new : str) (s : str) : str :=
  flat_map (fun c => if c =? old then new else [c]) s.

Fixpoint str_eqb (a b : str) : bool :=
  match a, b with
  | [], [] => true
  | x :: a', y :: b' => (x =? y) && str_eqb a' b'
  | _, _ => false
  end.

(** [s.startswith(prefix)] *)
Fixpoint startswith (prefix s : str) : bool :=
  match prefix, s with
  | [], _ => true
  | x :: p', y :: s' => (x =? y) && startswith p' s'
  | _ :: _, [] => false
  end.

(** [sep.join(parts)] *)
Fixpoint join (sep : str) (parts : list str) : str :=
  match parts with
  | [] => []
  | [p] => p
  | p :: rest => p ++ sep ++ join sep rest
  end.

(** [c in s] for a character [c]. *)
Definition contains (c : char) (s : str) : bool := existsb (N.eqb c) s.

(** Truthiness of a [str]: non-empty. *)
Definition nonempty (s : str) : bool :=
  match s with [] => false | _ :: _ => true end.

(** [s[i:j]] for [0 <= i <= j]. *)
Definition slice (i j : nat) (s : str) : str := firstn (j - i) (skipn i s).

End PyStr.

(* ================================================================== *)
(** * Regular expressions *)
(* ================================================================== *)

Module Re.

Import PyStr.

(** The syntax the script's patterns use.  [Star] is the greedy [*];
    [Grp] is the one capturing group a pattern may have (group 1);
    [Bol] and [Eol] are [^] and [$] without the MULTILINE flag. *)
Inductive regex : Type :=
| Eps : regex
| Cls : (char -> bool) -> regex
| Cat : regex -> regex -> regex
| Alt : regex -> regex -> regex
| Star : regex -> regex
| Bol : regex
| Eol : regex
| Grp : regex -> regex.

(** A position of the matcher in the subject: the index reached, the text
    still ahead, and the span of group 1 if it has been closed. *)
Record mstate : Type := MState {
  m_pos : nat;
  m_rest : str;
  m_grp : option (nat * nat)
}.

Definition advance (st : mstate) (t : str) : mstate :=
  MState (S (m_pos st)) t (m_grp st).

Definition close_group (from : nat) (st : mstate) : mstate :=
  MState (m_pos st) (m_rest st) (Some (from, m_pos st)).

Section Matcher.

Variable A : Type.

(** The backtracking matcher in continuation-passing style: alternatives are
    tried left to right and a greedy star tries one more iteration before it
    tries to stop, so the first success is the match Python's engine reports.
    An iteration of a star that consumes nothing is not repeated. *)
Fixpoint rmatch (r : regex) (st : mstate) (k : mstate -> option A) {struct r}
  : option A :=
  match r with
  | Eps => k st
  | Cls p =>
      match m_rest st with
      | c :: t => if p c then k (advance st t) else None
      | [] => None
      end
  | Cat r1 r2 => rmatch r1 st (fun st1 => rmatch r2 st1 k)
  | Alt r1 r2 =>
      match rmatch r1 st k with
      | Some a => Some a
      | None => rmatch r2 st k
      end
  | Star r1 =>
      (fix loop (fuel : nat) (st : mstate) {struct fuel} : option A :=
         match fuel with
         | O => k st
         | S fuel' =>
             match rmatch r1 st
                     (fun st1 => if (m_pos st <? m_pos st1)%nat
                                 then loop fuel' st1 else None) with
             | Some a => Some a
             | None => k st
             end
         end) (List.length (m_rest st)) st
  | Bol => if (m_pos st =? 0)%nat then k st else None
  | Eol =>
      match m_rest st with
      | [] => k st
      | [c] => if (c =? LF)%N then k st else None
      | _ => None
      end
  | Grp r1 => rmatch r1 st (fun st1 => k (close_group (m_pos st) st1))
  end.

End Matcher.

(** Derived forms. *)
Definition Chr (c : char) : regex := Cls (N.eqb c).
Definition Opt (r : regex) : regex := Alt r Eps.          (* r? *)
Definition Plus (r : regex) : regex := Cat r (Star r).    (* r+ *)
Definition Rep3 (r : regex) : regex := Cat r (Cat r r).   (* r{3} *)
Fixpoint Lit (s : str) : regex :=
  match s with
  | [] => Eps
  | c :: t => Cat (Chr c) (Lit t)
  end.

Definition d : regex := Cls isdecimal.   (* \d *)
Definition ws : regex := Cls isspace.    (* \s *)

Definition at_start (pos : nat) (s : str) : mstate := MState pos s None.

(** [re.match(r, s)]: a match anchored at index 0; the result is the final
    matcher state (end index and group span). *)
Definition re_match (r : regex) (s : str) : option mstate :=
  rmatch r (at_start 0 s) (@Some mstate).

(** [re.search(r, s)]: the leftmost match. *)
Fixpoint search_from (r : regex) (pos : nat) (s : str) : option mstate :=
  match rmatch r (at_start pos s) (@Some mstate) with
  | Some m => Some m
  | None =>
      match s with
      | [] => None
      | _ :: t => search_from r (S pos) t
      end
  end.

Definition re_search (r : regex) (s : str) : option mstate := search_from r 0 s.

Definition is_match (m : option mstate) : bool :=
  match m with Some _ => true | None => false end.

(** [m.group(1)] of a match [m] on subject [s]. *)
Definition group1 (m : mstate) (s : str) : str :=
  match m_grp m with
  | Some (i, j) => slice i j s
  | None => []
  end.

(** [re.sub(r, "", s)]: every non-overlapping match, leftmost first, is
    deleted.  (With an empty replacement an empty match changes nothing, so
    only matches that consume text matter.) *)
Fixpoint sub_from (r : regex) (fuel pos : nat) (s : str) : str :=
  match fuel with
  | O => s
  | S fuel' =>
      match rmatch r (at_start pos s) (@Some mstate) with
      | Some m =>
          if (pos <? m_pos m)%nat
          then sub_from r fuel' (m_pos m) (m_rest m)
          else match s with
               | [] => []
               | c :: t => c :: sub_from r fuel' (S pos) t
               end
      | None =>
          match s with
          | [] => []
          | c :: t => c :: sub_from r fuel' (S pos) t
          end
      end
  end.

Definition re_sub_empty (r : regex) (s : str) : str :=
  sub_from r (S (List.length s)) 0 s.

(** [re.split(r"[seps]+", s)] for a separator class: the pieces between the
    maximal runs of separator characters, empty pieces at the two ends
    included. *)
Fixpoint split_runs (sep : char -> bool) (in_sep : bool) (cur : str) (s : str)
  : list str :=
  match s with
  | [] => [rev cur]
  | c :: t =>
      if sep c then
        if in_sep then split_runs sep true cur t
        else rev cur :: split_runs sep true [] t
      else split_runs sep false (c :: cur) t
  end.

Definition re_split_class (sep : char -> bool) (s : str) : list str :=
  split_runs sep false [] s.

(** ** What the matcher computes

    The loop of a star, with the matcher of its body as a parameter: the
    same function as the local [loop] of [rmatch]. *)
Section StarLoop.

Variable A : Type.
Variable body : mstate -> (mstate -> option A) -> option A.
Variable k : mstate -> option A.

Fixpoint star_loop (fuel : nat) (st : mstate) {struct fuel} : option A :=
  match fuel with
  | O => k st
  | S fuel' =>
      match body st
              (fun st1 => if (m_pos st <? m_pos st1)%nat
                          then star_loop fuel' st1 else None) with
      | Some a => Some a
      | None => k st
      end
  end.

End StarLoop.

(** The matches of a pattern, as a relation between the state before and
    the state after: [matches r st st'] when [r] can consume the text
    between the two positions.  The matcher explores exactly these (lemmas
    [rmatch_sound] and [rmatch_complete] below). *)
Inductive matches : regex -> mstate -> mstate -> Prop :=
| M_Eps : forall st, matches Eps st st
| M_Cls : forall p st c t,
    m_rest st = c :: t -> p c = true -> matches (Cls p) st (advance st t)
| M_Cat : forall r1 r2 st st1 st2,
    matches r1 st st1 -> matches r2 st1 st2 -> matches (Cat r1 r2) st st2
| M_AltL : forall r1 r2 st st1, matches r1 st st1 -> matches (Alt r1 r2) st st1
| M_AltR : forall r1 r2 st st1, matches r2 st st1 -> matches (Alt r1 r2) st st1
| M_StarNil : forall r st, matches (Star r) st st
| M_StarCons : forall r st st1 st2,
    matches r st st1 -> (m_pos st < m_pos st1)%nat ->
    matches (Star r) st1 st2 -> matches (Star r) st st2
| M_Bol : forall st, m_pos st = 0%nat -> matches Bol st st
| M_Eol : forall st,
    m_rest st = [] \/ m_rest st = [LF] -> matches Eol st st
| M_Grp : forall r st st1,
    matches r st st1 -> matches (Grp r) st (close_group (m_pos st) st1).

End Re.

(* ================================================================== *)
(** * decimal.Decimal *)
(* ================================================================== *)

Module Dec.

Import PyStr.
Local Open Scope Z_scope.

(** A finite number: sign, coefficient and exponent; its value is
    [(-1)^sign * coefficient * 10^exponent].  (The coefficient is kept as a
    number; Python keeps its decimal numeral.) *)
Record finite : Type := mkFinite {
  d_sign : bool;
  d_int : N;
  d_exp : Z
}.

(** A [Decimal]: a finite number, an infinity, or a quiet or signaling NaN
    with its payload (0 for the empty payload). *)
Inductive Decimal : Type :=
| Fin (x : finite)
| Inf (sign : bool)
| NaN (sign : bool) (signaling : bool) (payload : N).

(** The default context: [prec=28], [rounding=ROUND_HALF_EVEN],
    [Emin=-999999], [Emax=999999], [clamp=0], and [InvalidOperation],
    [DivisionByZero] and [Overflow] as the trapped signals. *)
Definition prec : Z := 28.
Definition Emax : Z := 999999.
Definition Emin : Z := -999999.
Definition Etiny : Z := Emin - prec + 1.
Definition Etop : Z := Emax - prec + 1.

(** The limits of the constructor, which reads a numeral exactly: the
    largest precision and exponent range of the library on a 64-bit
    build. *)
Definition MAX_PREC : Z := 999999999999999999.
Definition MAX_EMAX : Z := 999999999999999999.
Definition MIN_EMIN : Z := -999999999999999999.
Definition MIN_ETINY : Z := MIN_EMIN - (MAX_PREC - 1).

(** [str(n)] for an [int] [n >= 0], as digit values, most significant
    first. *)
Fixpoint digits_fuel (fuel : nat) (n : N) (acc : list N) : list N :=
  match fuel with
  | O => acc
  | S fuel' =>
      if (n <? 10)%N then n :: acc
      else digits_fuel fuel' (n / 10)%N ((n mod 10)%N :: acc)
  end.

Definition int_digits (n : N) : list N := digits_fuel (S (N.size_nat n)) n [].

(** [len(self._int)] *)
Definition int_len (n : N) : Z := Z.of_nat (List.length (int_digits n)).

(** [10 ** k], and [1] for a negative [k] (the length of ['0' * k]). *)
Definition pow10 (k : Z) : N := (10 ^ Z.to_N k)%N.

(** [int(s)] for a string of decimal digits of any script. *)
Definition int_of_decimal (s : str) : N :=
  fold_left (fun acc c => (10 * acc + digit_value c)%N) s 0%N.

Fixpoint span (p : char -> bool) (s : str) : str * str :=
  match s with
  | [] => ([], [])
  | c :: t =>
      if p c then let '(a, b) := span p t in (c :: a, b) else ([], s)
  end.

(** ** The constructor [Decimal(s)] for a string *)

(** One character of the ASCII copy that the constructor makes of its
    argument: an ASCII character is kept, any other white space becomes a
    blank, any other decimal digit becomes the ASCII digit of its value, and
    anything else makes the whole string invalid. *)
Definition ascii_of_char (c : char) : option char :=
  if ((0 <? c) && (c <=? 127))%N then Some c
  else if isspace c then Some SPACE
  else if isdecimal c then Some (48 + digit_value c)%N
  else None.

Fixpoint ascii_of_chars (s : str) : option str :=
  match s with
  | [] => Some []
  | c :: t =>
      match ascii_of_char c, ascii_of_chars t with
      | Some a, Some r => Some (a :: r)
      | _, _ => None
      end
  end.

(** The ASCII copy: white space around the numeral is dropped, then every
    underscore. *)
Definition numeric_as_ascii (s : str) : option str :=
  ascii_of_chars (replace 95%N [] (strip s)).

(** Upper-case ASCII letters to lower case. *)
Definition ascii_lower (c : char) : char :=
  if between 65%N 90%N c then (c + 32)%N else c.

(** [s] without the prefix [p], compared without regard to case ([p] is in
    lower case). *)
Fixpoint after_prefix (p s : str) : option str :=
  match p, s with
  | [], _ => Some s
  | x :: p', y :: s' =>
      if (ascii_lower y =? x)%N then after_prefix p' s' else None
  | _ :: _, [] => None
  end.

(** The payload of a NaN: ASCII digits only, read as a number. *)
Definition payload_of (s : str) : option N :=
  if forallb is_ascii_digit s then Some (int_of_decimal s) else None.

(** The exponent part: nothing, or [e] or [E], an optional sign and at
    least one digit. *)
Definition exponent_of (s : str) : option Z :=
  match s with
  | [] => Some 0
  | c :: t =>
      if (ascii_lower c =? 101)%N then
        let '(negative, ds) :=
          match t with
          | x :: t' =>
              if (x =? 45)%N then (true, t')
              else if (x =? 43)%N then (false, t')
              else (false, t)
          | [] => (false, t)
          end in
        if nonempty ds && forallb is_ascii_digit ds then
          let e := Z.of_N (int_of_decimal ds) in
          Some (if negative then - e else e)
        else None
      else None
  end.

(** The exact reading of a finite numeral is kept when it needs no
    rounding and no clamping in the widest context. *)
Definition representable (coeff : N) (exp : Z) (fracdigits : Z) : bool :=
  (fracdigits <=? MAX_PREC) && (int_len coeff <=? MAX_PREC)
  && (MIN_ETINY <=? exp)
  && (exp + int_len coeff - 1 <=? MAX_EMAX).

(** A finite numeral: digits with at most one point among them, at least
    one digit in all, and an exponent part. *)
Definition finite_of (sign : bool) (s : str) : option Decimal :=
  let '(intpart, rest) := span is_ascii_digit s in
  let '(fracpart, rest) :=
    match rest with
    | c :: t => if (c =? DOT)%N then span is_ascii_digit t else ([], rest)
    | [] => ([], rest)
    end in
  if negb (nonempty intpart || nonempty fracpart) then None else
  match exponent_of rest with
  | None => None
  | Some e =>
      let coeff := int_of_decimal (intpart ++ fracpart) in
      let fracdigits := Z.of_nat (List.length fracpart) in
      let exp := e - fracdigits in
      if representable coeff exp fracdigits
      then Some (Fin (mkFinite sign coeff exp))
      else None
  end.

(** [Decimal(s)] for a string [s]; [None] stands for [InvalidOperation]. *)
Definition of_str (s : str) : option Decimal :=
  match numeric_as_ascii s with
  | None => None
  | Some s =>
      let '(sign, s) :=
        match s with
        | c :: t =>
            if (c =? 45)%N then (true, t)
            else if (c =? 43)%N then (false, t)
            else (false, s)
        | [] => (false, s)
        end in
      match after_prefix (lit "nan") s with
      | Some rest => option_map (NaN sign false) (payload_of rest)
      | None =>
      match after_prefix (lit "snan") s with
      | Some rest => option_map (NaN sign true) (payload_of rest)
      | None =>
      match after_prefix (lit "inf") s with
      | Some rest =>
          match rest with
          | [] => Some (Inf sign)
          | _ :: _ =>
              match after_prefix (lit "inity") rest with
              | Some [] => Some (Inf sign)
              | _ => None
              end
          end
      | None => finite_of sign s
      end end end
  end.

(** [Decimal(0)] *)
Definition zero : Decimal := Fin (mkFinite false 0 0).

(** ** Arithmetic in the default context *)

(** The rounding decision of [_round_half_even] when the last [k >= 1]
    digits of [n] are dropped: [true] when the kept part is incremented. *)
Definition rounds_up (n : N) (k : Z) : bool :=
  let q := (n / pow10 k)%N in
  let r := (n mod pow10 k)%N in
  let half := (pow10 k / 2)%N in
  ((half <? r) || ((r =? half) && N.odd q))%N.

(** [self._fix(context)] for a finite number: round to the context's
    precision and exponent range.  [None] is the exception
    [decimal.Overflow]. *)
Definition _fix (x : finite) : option finite :=
  if (d_int x =? 0)%N then
    Some (mkFinite (d_sign x) 0 (Z.min (Z.max (d_exp x) Etiny) Emax))
  else
    let exp_min := int_len (d_int x) + d_exp x - prec in
    if Etop <? exp_min then None
    else
      let exp_min := if exp_min <? Etiny then Etiny else exp_min in
      if d_exp x <? exp_min then
        let k := exp_min - d_exp x in
        let q := (d_int x / pow10 k)%N in
        let '(coeff, exp_min) :=
          if rounds_up (d_int x) k then
            if prec <? int_len (q + 1)
            then (((q + 1) / 10)%N, exp_min + 1)
            else ((q + 1)%N, exp_min)
          else (q, exp_min) in
        if Etop <? exp_min then None
        else Some (mkFinite (d_sign x) coeff exp_min)
      else Some x.

(** [self._fix_nan(context)]: a payload longer than the precision keeps its
    last [prec] digits. *)
Definition _fix_nan (payload : N) : N := (payload mod pow10 prec)%N.

(** [self._rescale(exp, rounding)] for [exp <= self._exp]: pad with zeros. *)
Definition rescale_pad (x : finite) (exp : Z) : finite :=
  if (d_int x =? 0)%N then mkFinite (d_sign x) 0 exp
  else mkFinite (d_sign x) (d_int x * pow10 (d_exp x - exp))%N exp.

(** [_normalize(op1, op2, prec)]: bring both operands to one exponent; an
    operand too small to matter after rounding is replaced by a unit of the
    last place that can. *)
Definition normalize (op1 op2 : finite) : finite * finite :=
  let swap := d_exp op1 <? d_exp op2 in
  let tmp := if swap then op2 else op1 in
  let other := if swap then op1 else op2 in
  let exp := d_exp tmp + Z.min (-1) (int_len (d_int tmp) - prec - 2) in
  let other :=
    if int_len (d_int other) + d_exp other - 1 <? exp
    then mkFinite (d_sign other) 1 exp else other in
  let tmp :=
    mkFinite (d_sign tmp) (d_int tmp * pow10 (d_exp tmp - d_exp other))%N
             (d_exp other) in
  if swap then (other, tmp) else (tmp, other).

(** [self + other] for two finite numbers. *)
Definition add_finite (x y : finite) : option finite :=
  let exp := Z.min (d_exp x) (d_exp y) in
  if (d_int x =? 0)%N && (d_int y =? 0)%N then
    _fix (mkFinite (d_sign x && d_sign y) 0 exp)
  else if (d_int x =? 0)%N then
    _fix (rescale_pad y (Z.max exp (d_exp y - prec - 1)))
  else if (d_int y =? 0)%N then
    _fix (rescale_pad x (Z.max exp (d_exp x - prec - 1)))
  else
    let '(op1, op2) := normalize x y in
    if negb (Bool.eqb (d_sign op1) (d_sign op2)) then
      if (d_int op1 =? d_int op2)%N then _fix (mkFinite false 0 exp)
      else
        let '(big, small) :=
          if (d_int op1 <? d_int op2)%N then (op2, op1) else (op1, op2) in
        _fix (mkFinite (d_sign big) (d_int big - d_int small)%N (d_exp op1))
    else _fix (mkFinite (d_sign op1) (d_int op1 + d_int op2)%N (d_exp op1)).

(** [self + other].  [None] is a trapped signal: [InvalidOperation] for a
    signaling NaN or for the sum of two opposite infinities, [Overflow]
    for a finite sum that is too large. *)
Definition add (x y : Decimal) : option Decimal :=
  match x, y with
  | NaN _ true _, _ => None
  | _, NaN _ true _ => None
  | NaN sign false payload, _ => Some (NaN sign false (_fix_nan payload))
  | _, NaN sign false payload => Some (NaN sign false (_fix_nan payload))
  | Inf sx, Inf sy => if Bool.eqb sx sy then Some (Inf sx) else None
  | Inf sx, Fin _ => Some (Inf sx)
  | Fin _, Inf sy => Some (Inf sy)
  | Fin a, Fin b => option_map Fin (add_finite a b)
  end.

Definition copy_abs (x : finite) : finite :=
  mkFinite false (d_int x) (d_exp x).
Definition copy_negate (x : finite) : finite :=
  mkFinite (negb (d_sign x)) (d_int x) (d_exp x).

(** [self - other]: [self + other.copy_negate()] once the NaNs are dealt
    with. *)
Definition sub (x y : Decimal) : option Decimal :=
  match y with
  | Fin b => add x (Fin (copy_negate b))
  | Inf sy => add x (Inf (negb sy))
  | NaN _ _ _ => add x y
  end.

(** [-self] and [+self] for a finite number. *)
Definition neg (x : finite) : option finite :=
  _fix (if (d_int x =? 0)%N then copy_abs x else copy_negate x).
Definition pos (x : finite) : option finite :=
  _fix (if (d_int x =? 0)%N then copy_abs x else x).

(** [abs(self)] *)
Definition abs (x : Decimal) : option Decimal :=
  match x with
  | NaN _ true _ => None
  | NaN sign false payload => Some (NaN sign false (_fix_nan payload))
  | Inf _ => Some (Inf false)
  | Fin a => option_map Fin (if d_sign a then neg a else pos a)
  end.

(** [self.adjusted()] *)
Definition adjusted (x : finite) : Z := d_exp x + int_len (d_int x) - 1.

(** [self._cmp(other) == 0] for two finite numbers: numerical equality,
    exact. *)
Definition eqb_finite (x y : finite) : bool :=
  if (d_int x =? 0)%N then (d_int y =? 0)%N
  else if (d_int y =? 0)%N then false
  else if negb (Bool.eqb (d_sign x) (d_sign y)) then false
  else if adjusted x =? adjusted y then
    (d_int x * pow10 (d_exp x - d_exp y)
     =? d_int y * pow10 (d_exp y - d_exp x))%N
  else false.

(** [self == other].  [None] is [InvalidOperation], which a comparison
    with a signaling NaN raises; a quiet NaN is equal to nothing. *)
Definition eqb (x y : Decimal) : option bool :=
  match x, y with
  | NaN _ true _, _ => None
  | _, NaN _ true _ => None
  | NaN _ false _, _ => Some false
  | _, NaN _ false _ => Some false
  | Inf sx, Inf sy => Some (Bool.eqb sx sy)
  | Inf _, Fin _ => Some false
  | Fin _, Inf _ => Some false
  | Fin a, Fin b => Some (eqb_finite a b)
  end.

Definition digit_chars (n : N) : str := map (fun v => (48 + v)%N) (int_digits n).

(** ["%+d" % n] *)
Definition format_plus_d (n : Z) : str :=
  (if n <? 0 then lit "-" else lit "+") ++ digit_chars (Z.abs_N n).

(** [str(self)] for a finite number: its scientific string. *)
Definition to_str_finite (x : finite) : str :=
  let sign := if d_sign x then lit "-" else [] in
  let ds := digit_chars (d_int x) in
  let len := int_len (d_int x) in
  let leftdigits := d_exp x + len in
  let dotplace :=
    if (d_exp x <=? 0) && (-6 <? leftdigits) then leftdigits else 1 in
  let '(intpart, fracpart) :=
    if dotplace <=? 0 then
      (lit "0", lit "." ++ repeat 48%N (Z.to_nat (- dotplace)) ++ ds)
    else if len <=? dotplace then
      (ds ++ repeat 48%N (Z.to_nat (dotplace - len)), [])
    else
      (firstn (Z.to_nat dotplace) ds, lit "." ++ skipn (Z.to_nat dotplace) ds) in
  let exp :=
    if leftdigits =? dotplace then []
    else lit "E" ++ format_plus_d (leftdigits - dotplace) in
  sign ++ intpart ++ fracpart ++ exp.

(** [str(self)] *)
Definition to_str (x : Decimal) : str :=
  match x with
  | Fin a => to_str_finite a
  | Inf sign => (if sign then lit "-" else []) ++ lit "Infinity"
  | NaN sign signaling payload =>
      (if sign then lit "-" else [])
      ++ (if signaling then lit "sNaN" else lit "NaN")
      ++ (if (payload =? 0)%N then [] else digit_chars payload)
  end.

End Dec.

(* ================================================================== *)
(** * extract_tables.py *)
(* ================================================================== *)

Module ExtractTables.

Import PyStr Re Dec.
Local Open Scope N_scope.

Declare Scope re_scope.
Delimit Scope re_scope with re.
Infix ";;" := Cat (at level 61, right associativity) : re_scope.
Infix "<|>" := Alt (at level 62, right associativity) : re_scope.
Local Open Scope re_scope.

(** A character class given by the characters it lists. *)
Definition one_of (cs : str) : char -> bool := fun c => existsb (N.eqb c) cs.

Definition chr (s : string) : char :=
  match s with
  | String a _ => ord a
  | EmptyString => 0
  end.

(** ** The module's patterns *)

(** The patterns are quoted token by token, blanks between the tokens.

    CURRENCY_PREFIX:  ^ \s* (?: Ps \.? \s* | MXN \s* | USD \s* | US [$] \s* | [$] \s* ) *)
Definition CURRENCY_PREFIX : regex :=
  Bol ;; Star ws ;;
  (   (Lit (lit "Ps") ;; Opt (Chr DOT) ;; Star ws)
  <|> (Lit (lit "MXN") ;; Star ws)
  <|> (Lit (lit "USD") ;; Star ws)
  <|> (Lit (lit "US") ;; Chr (chr "$") ;; Star ws)
  <|> (Chr (chr "$") ;; Star ws)).

(** PARENTHETICAL_NEG:  ^ \s* \( \s* ( [\d,.\s]+ ) \s* \) \s* $ *)
Definition PARENTHETICAL_NEG : regex :=
  Bol ;; Star ws ;; Chr (chr "(") ;; Star ws ;;
  Grp (Plus (Cls (fun c => isdecimal c || (c =? COMMA) || (c =? DOT) || isspace c))) ;;
  Star ws ;; Chr (chr ")") ;; Star ws ;; Eol.

(** FOOTNOTE_PATTERN:  ^ \s* (?: \d{1,2} \s* [\)\.] | [*†‡§¹²³⁴⁵] | \( \d \) ) \s* ; the second
    alternative lists U+002A, U+2020, U+2021, U+00A7, U+00B9, U+00B2,
    U+00B3, U+2074 and U+2075. *)
Definition FOOTNOTE_PATTERN : regex :=
  Bol ;; Star ws ;;
  (   (d ;; Opt d ;; Star ws ;; Cls (one_of (lit ").")))
  <|> Cls (one_of [42; 8224; 8225; 167; 185; 178; 179; 8308; 8309])
  <|> (Chr (chr "(") ;; d ;; Chr (chr ")"))) ;;
  Star ws.

(** The pattern  ^ \d+ \.? \d* $ , the shape test at the end of [normalize_number_string]. *)
Definition PLAIN_NUMBER : regex :=
  Bol ;; Plus d ;; Opt (Chr DOT) ;; Star d ;; Eol.

(** The four evidence patterns of [detect_number_format]. *)
Definition EN_GROUP_DOT : regex := d ;; Chr COMMA ;; Rep3 d ;; Chr DOT.   (* \d , \d{3} \. *)
Definition ES_GROUP_COMMA : regex := d ;; Chr DOT ;; Rep3 d ;; Chr COMMA. (* \d \. \d{3} , *)
Definition EN_GROUP_END : regex := d ;; Chr COMMA ;; Rep3 d ;; Eol.       (* \d , \d{3} $ *)
Definition ES_GROUP_END : regex := d ;; Chr DOT ;; Rep3 d ;; Eol.         (* \d \. \d{3} $ *)

(** The class [()−–-] : parentheses, U+2212, U+2013 and the hyphen. *)
Definition SIGN_MARKS : regex :=
  Cls (one_of [chr "("; chr ")"; MINUS_SIGN; EN_DASH; HYPHEN]).

(** ** Data *)

(** A cell is a [str] or [None]; a row is a list of cells. *)
Definition cell := option str.
Definition row := list cell.
Definition table := list row.

(** The two number formats, the tags ['en'] and ['es']. *)
Inductive number_format : Type := en | es.

(** ** detect_number_format *)

(** One iteration of the loop over the evidence pool: the pair is
    [(en_evidence, es_evidence)]. *)
Definition count_evidence (acc : nat * nat) (c : cell) : nat * nat :=
  match c with
  | None => acc
  | Some text =>
      let cleaned := strip (re_sub_empty CURRENCY_PREFIX text) in
      let cleaned := strip (re_sub_empty SIGN_MARKS cleaned) in
      let '(en_evidence, es_evidence) := acc in
      if is_match (re_search EN_GROUP_DOT cleaned) then
        (S en_evidence, es_evidence)
      else if is_match (re_search ES_GROUP_COMMA cleaned) then
        (en_evidence, S es_evidence)
      else if is_match (re_search EN_GROUP_END cleaned)
              && negb (contains DOT cleaned) then
        (S en_evidence, es_evidence)
      else if is_match (re_search ES_GROUP_END cleaned)
              && negb (contains COMMA cleaned) then
        (en_evidence, S es_evidence)
      else acc
  end.

Definition evidence (cells : list cell) : nat * nat :=
  fold_left count_evidence cells (0%nat, 0%nat).

Definition detect_number_format (cells : list cell) : number_format :=
  let '(en_evidence, es_evidence) := evidence cells in
  if (en_evidence <? es_evidence)%nat then es else en.

(** ** normalize_number_string *)

Definition normalize_number_string (raw : cell) (fmt : number_format)
  : option str :=
  match raw with
  | None => None
  | Some raw =>
      let s := strip raw in
      if negb (nonempty s) || negb (is_match (re_search d s)) then None else
      let s := strip (re_sub_empty CURRENCY_PREFIX s) in
      let '(s, neg) :=
        match re_match PARENTHETICAL_NEG s with
        | Some paren_match => (strip (group1 paren_match s), true)
        | None => (s, false)
        end in
      let s := replace EN_DASH (lit "-") (replace MINUS_SIGN (lit "-") s) in
      let '(s, neg) :=
        if startswith (lit "-") s then (strip (skipn 1 s), true)
        else (s, neg) in
      let s := replace NBSP [] (replace SPACE [] s) in
      if str_eqb s (lit "-") || str_eqb s [EM_DASH] || str_eqb s [EN_DASH]
      then Some (lit "0") else
      let s :=
        match fmt with
        | es => replace COMMA (lit ".") (replace DOT [] s)
        | en => replace COMMA [] s
        end in
      if negb (is_match (re_match PLAIN_NUMBER s)) then None else
      Some (if neg then lit "-" ++ s else s)
  end.

(** ** is_rgb_artifact *)

(** The interpreter's limit on the length of a decimal numeral that [int]
    converts ([sys.get_int_max_str_digits()], 4300 unless reconfigured). *)
Definition int_max_str_digits : nat := 4300.

(** [int(p)] for a string of ASCII digits; [None] is the [ValueError] that
    [int] raises for a numeral of more than [int_max_str_digits] digits. *)
Definition int_of_digits (p : str) : option N :=
  if (int_max_str_digits <? List.length p)%nat then None
  else Some (fold_left (fun acc c => 10 * acc + (c - 48)) p 0).

(** The generator's test on one piece [p]:
    [p.isascii() and p.isdigit() and 0 <= int(p) <= 255]
    (pieces are non-empty, so [isdigit] is "every character is a digit");
    [None] when [int] raises. *)
Definition is_small_int (p : str) : option bool :=
  if negb (forallb is_ascii_digit p) then Some false else
  match int_of_digits p with
  | Some n => Some (n <=? 255)
  | None => None
  end.

(** [all(...)] over a generator: the tests run in order up to the first
    that is false; an exception raised by a test goes through. *)
Fixpoint py_all (A : Type) (test : A -> option bool) (items : list A)
  : option bool :=
  match items with
  | [] => Some true
  | x :: rest =>
      match test x with
      | Some true => py_all test rest
      | Some false => Some false
      | None => None
      end
  end.

(** The [except (ValueError, OverflowError)] branch returns [False]. *)
Definition is_rgb_artifact (c : cell) : bool :=
  match c with
  | None => true
  | Some text =>
      let s := strip (rstrip_chars (lit ",") (strip text)) in
      if negb (nonempty s) then true else
      let parts := re_split_class (fun c => (c =? COMMA) || isspace c) s in
      match py_all is_small_int (filter nonempty parts) with
      | Some result => result
      | None => false
      end
  end.

(** ** detect_artifact_columns *)

(** [v is not None and str(v).strip()] *)
Definition has_text (c : cell) : bool :=
  match c with
  | None => false
  | Some text => nonempty (strip text)
  end.

(** [row[col_idx] if col_idx < len(row) else None] *)
Definition cell_at (col_idx : nat) (r : row) : cell := nth col_idx r None.

Definition max_cols (t : table) : nat :=
  fold_right Nat.max 0%nat (map (@List.length cell) t).

(** [artifact_count / len(non_empty) > 0.7].  The quotient of the two
    counts is correctly rounded and [0.7] is the double nearest to 7/10, so
    for counts below 2^50 the comparison holds exactly when
    [10 * artifact_count > 7 * len(non_empty)]. *)
Definition ratio_above_70 (artifact_count total : nat) : bool :=
  (7 * total <? 10 * artifact_count)%nat.

(** The decision taken for one column: [true] when [strip_count] is
    incremented, [false] when the loop breaks. *)
Definition column_is_artifact (t : table) (col_idx : nat) : bool :=
  let col_values := map (cell_at col_idx) t in
  let non_empty := filter has_text col_values in
  match non_empty with
  | [] => true
  | _ :: _ =>
      let artifact_count := List.length (filter is_rgb_artifact non_empty) in
      ratio_above_70 artifact_count (List.length non_empty)
  end.

(** The loop [for col_idx in range(max_cols)], with its [break]. *)
Fixpoint scan_columns (t : table) (cols : list nat) (strip_count : nat) : nat :=
  match cols with
  | [] => strip_count
  | col_idx :: rest =>
      if column_is_artifact t col_idx
      then scan_columns t rest (S strip_count)
      else strip_count
  end.

Definition detect_artifact_columns (t : table) : nat :=
  match t with
  | [] => 0%nat
  | _ :: _ => scan_columns t (seq 0 (max_cols t)) 0
  end.

(** ** is_footnote_row *)

(** The bullet glyphs U+25AA, U+2022 and U+25CF. *)
Definition has_bullet (s : str) : bool :=
  contains 9642 s || contains 8226 s || contains 9679 s.

(** Truthiness of a cell ([if c]): a non-empty string. *)
Definition truthy (c : cell) : bool :=
  match c with
  | None => false
  | Some text => nonempty text
  end.

Definition cell_str (c : cell) : str :=
  match c with
  | None => lit "None"
  | Some text => text
  end.

Definition is_footnote_row (r : row) : bool :=
  let text_cells := map cell_str (filter has_text r) in
  match text_cells with
  | [] => true
  | first :: _ =>
      if is_match (re_match FOOTNOTE_PATTERN first) then true
      else if (200 <? List.length (join (lit " ") text_cells))%nat then true
      else if existsb (fun c => has_bullet (cell_str c)) (filter truthy r) then true
      else false
  end.

(** ** extract_table_with_words *)

(** Coordinates.  pdfplumber reports them as binary floating-point numbers;
    here they are exact rationals, so the sums, halves and products below
    carry no rounding error. *)
Definition coord := Q.

Local Open Scope Q_scope.

(** A word of [page.extract_words(...)]: the keys ["x0"], ["top"], ["x1"],
    ["bottom"] and ["text"]. *)
Record word : Type := Word {
  w_x0 : coord;
  w_top : coord;
  w_x1 : coord;
  w_bottom : coord;
  w_text : str
}.

(** A cell box of [table.cells]: [(x0, top, x1, bottom)]. *)
Definition box : Type := (coord * coord * coord * coord)%type.

(** [round(x, 0)]: the nearest integer, a tie going to the even one. *)
Definition py_round (x : coord) : Z :=
  let f := Qfloor x in
  match Qcompare (x - inject_Z f) (1 # 2) with
  | Lt => f
  | Gt => (f + 1)%Z
  | Eq => if Z.even f then f else (f + 1)%Z
  end.

(** [sorted(set(keys))], which is also [sorted(d.keys())] of a dict. *)
Fixpoint insert_key (x : Z) (l : list Z) : list Z :=
  match l with
  | [] => [x]
  | y :: t =>
      if (x <? y)%Z then x :: l
      else if (x =? y)%Z then l
      else y :: insert_key x t
  end.

Definition sorted_keys (l : list Z) : list Z := fold_right insert_key [] l.

(** [min(keys, key=f)]: the first element at which [f] is least. *)
Fixpoint min_from (f : Z -> Z) (best : Z) (l : list Z) : Z :=
  match l with
  | [] => best
  | x :: t => if (f x <? f best)%Z then min_from f x t else min_from f best t
  end.

Definition py_min (f : Z -> Z) (l : list Z) : Z :=
  match l with
  | [] => 0%Z
  | x :: t => min_from f x t
  end.

(** A dict keyed by [(row_key, col_key)], in insertion order. *)
Definition grid_key : Type := (Z * Z)%type.

Definition key_eqb (a b : grid_key) : bool :=
  ((fst a =? fst b) && (snd a =? snd b))%Z.

Fixpoint dict_get {V : Type} (k : grid_key) (dct : list (grid_key * V)) : option V :=
  match dct with
  | [] => None
  | (k', v) :: t => if key_eqb k k' then Some v else dict_get k t
  end.

(** [dct[k] = v]: an existing key keeps its place. *)
Fixpoint dict_set {V : Type} (k : grid_key) (v : V) (dct : list (grid_key * V))
  : list (grid_key * V) :=
  match dct with
  | [] => [(k, v)]
  | (k', v') :: t =>
      if key_eqb k k' then (k', v) :: t else (k', v') :: dict_set k v t
  end.

(** The loop that fills [grid]. *)
Definition build_grid (row_keys col_positions : list Z) (cells : list box)
  : list (grid_key * box) :=
  fold_left
    (fun grid c =>
       let '(x0, top, x1, bottom) := c in
       let row_key := py_min (fun r => Z.abs (r - py_round top)%Z) row_keys in
       let col_key := py_min (fun c => Z.abs (c - py_round x0)%Z) col_positions in
       dict_set (row_key, col_key) c grid)
    cells [].

(** [cx0 - 2 <= wx_center <= cx1 + 2 and ctop - 2 <= wy_center <= cbottom + 2] *)
Definition center_in (w : word) (b : box) : bool :=
  let '(cx0, ctop, cx1, cbottom) := b in
  let wx_center := (w_x0 w + w_x1 w) / 2 in
  let wy_center := (w_top w + w_bottom w) / 2 in
  Qle_bool (cx0 - 2) wx_center && Qle_bool wx_center (cx1 + 2)
  && Qle_bool (ctop - 2) wy_center && Qle_bool wy_center (cbottom + 2).

Definition area (b : box) : coord :=
  let '(cx0, ctop, cx1, cbottom) := b in (cx1 - cx0) * (cbottom - ctop).

Definition Qlt_bool (a b : Q) : bool := negb (Qle_bool b a).

(** The inner loop over [grid.items()]: the state is [best_cell] (with its
    area, which is what [best_area] holds once [best_cell] is set). *)
Definition choose_cell (w : word) (best : option (grid_key * coord))
  (item : grid_key * box) : option (grid_key * coord) :=
  let '(cell_key, b) := item in
  if center_in w b then
    match best with
    | None => Some (cell_key, area b)
    | Some (_, best_area) =>
        if Qlt_bool (area b) best_area then Some (cell_key, area b) else best
    end
  else best.

Definition best_cell (grid : list (grid_key * box)) (w : word) : option grid_key :=
  option_map fst (fold_left (choose_cell w) grid None).

(** An entry of [cell_texts]: [(word["x0"], word["top"], word["text"])]. *)
Definition placed : Type := (coord * coord * str)%type.

(** [cell_texts[k].append(x)], creating the list when [k] is new. *)
Definition dict_append (k : grid_key) (x : placed)
  (dct : list (grid_key * list placed)) : list (grid_key * list placed) :=
  match dict_get k dct with
  | Some l => dict_set k (l ++ [x]) dct
  | None => dict_set k [x] dct
  end.

(** The loop over [words] that fills [cell_texts]. *)
Definition assign_words (grid : list (grid_key * box)) (words : list word)
  : list (grid_key * list placed) :=
  fold_left
    (fun cell_texts w =>
       match best_cell grid w with
       | Some k => dict_append k (w_x0 w, w_top w, w_text w) cell_texts
       | None => cell_texts
       end)
    words [].

(** The sort key [(w[1], w[0])] and the order of tuples on it. *)
Definition placed_le (a b : placed) : bool :=
  let '(ax0, atop, _) := a in
  let '(bx0, btop, _) := b in
  Qlt_bool atop btop || (Qeq_bool atop btop && Qle_bool ax0 bx0).

(** [sorted(l, key=...)]: a stable sort. *)
Fixpoint insert_sorted (x : placed) (l : list placed) : list placed :=
  match l with
  | [] => [x]
  | y :: t => if placed_le x y then x :: l else y :: insert_sorted x t
  end.

Definition py_sorted (l : list placed) : list placed :=
  fold_right insert_sorted [] l.

Definition placed_text (x : placed) : str := snd x.

(** The text of one cell of the result. *)
Definition cell_text (cell_texts : list (grid_key * list placed)) (k : grid_key)
  : cell :=
  match dict_get k cell_texts with
  | Some l => Some (strip (join (lit " ") (map placed_text (py_sorted l))))
  | None => None
  end.

(** [extract_table_with_words(page, table)], given the three things it reads
    from pdfplumber: [words] is [page.extract_words(...)], [cells] is
    [table.cells], and [coarse] is [table.extract(x_tolerance=15)], the
    result when the table has no cell boxes. *)
Definition extract_table_with_words (words : list word) (cells : list box)
  (coarse : table) : table :=
  match cells with
  | [] => coarse
  | _ :: _ =>
      let row_keys := sorted_keys (map (fun c => py_round (snd (fst (fst c)))) cells) in
      let col_positions := sorted_keys (map (fun c => py_round (fst (fst (fst c)))) cells) in
      let grid := build_grid row_keys col_positions cells in
      let cell_texts := assign_words grid words in
      map (fun row_key =>
             map (fun col_key => cell_text cell_texts (row_key, col_key))
                 col_positions)
          row_keys
  end.

Local Close Scope Q_scope.

(** ** to_decimal and validate_row_totals *)

Definition to_decimal (s : option str) : option Decimal :=
  match s with
  | None => None
  | Some text => of_str text
  end.

(** One entry of the list [validate_row_totals] returns: the dict with
    ["status": "skipped"] (its reason is always the same text), with
    ["status": "pass"], or with ["status": "mismatch"]; the fields hold the
    strings the script stores. *)
Inductive validation : Type :=
| Skipped (row_idx : nat)
| Pass (row_idx : nat) (expected computed : str)
| Mismatch (row_idx : nat) (expected computed diff : str).

(** The list [nums] built from one row: the normalized string and the
    [Decimal] of every cell that has one. *)
Fixpoint numeric_cells (r : row) (fmt : number_format) : list (str * Decimal) :=
  match r with
  | [] => []
  | c :: rest =>
      let normalized := normalize_number_string c fmt in
      match normalized, to_decimal normalized with
      | Some text, Some dv => (text, dv) :: numeric_cells rest fmt
      | _, _ => numeric_cells rest fmt
      end
  end.

Definition bind {A B : Type} (m : option A) (f : A -> option B) : option B :=
  match m with
  | Some a => f a
  | None => None
  end.

Notation "x <- m ;;; f" := (bind m (fun x => f))
  (at level 63, m at next level, right associativity).

(** [sum(parts)]: the built-in starts from the [int] 0, so the first
    addition is [d1.__radd__(0)], that is [d1 + Decimal(0)]. *)
Definition sum_decimals (parts : list Decimal) : option Decimal :=
  match parts with
  | [] => Some zero
  | d1 :: rest =>
      fold_left (fun acc dv => a <- acc ;;; add a dv) rest (add d1 zero)
  end.

(** The body of the loop over [enumerate(rows)].  [None] is an exception
    leaving the function: a signal that the context traps. *)
Definition validate_row (fmt : number_format) (row_idx : nat) (r : row)
  : option validation :=
  let nums := numeric_cells r fmt in
  if (List.length nums <? 3)%nat then Some (Skipped row_idx) else
  let parts := removelast nums in
  let '(last_str, last_val) := last nums ([], zero) in
  part_sum <- sum_decimals (map snd parts) ;;;
  equal <- eqb part_sum last_val ;;;
  if equal then
    Some (Pass row_idx (to_str last_val) (to_str part_sum))
  else
    delta <- sub part_sum last_val ;;;
    diff <- abs delta ;;;
    Some (Mismatch row_idx (to_str last_val) (to_str part_sum) (to_str diff)).

Fixpoint validate_rows (fmt : number_format) (row_idx : nat) (rows : list row)
  : option (list validation) :=
  match rows with
  | [] => Some []
  | r :: rest =>
      v <- validate_row fmt row_idx r ;;;
      vs <- validate_rows fmt (S row_idx) rest ;;;
      Some (v :: vs)
  end.

Definition validate_row_totals (rows : list row) (fmt : number_format)
  : option (list validation) :=
  validate_rows fmt 0 rows.

End ExtractTables.

(* ================================================================== *)
(** * Vocabulary of the properties *)
(* ================================================================== *)

Module Shapes.

Import PyStr Re Dec ExtractTables.
Local Open Scope N_scope.

(** ** The steps of normalize_number_string

    The body of [normalize_number_string] after its first test, cut at the
    two places where the sign is decided; [normalize_steps] below shows that
    the three pieces compose to the function. *)

(** Lines 158-162: the parenthetical wrapping. *)
Definition paren_step (s : str) : str * bool :=
  match re_match PARENTHETICAL_NEG s with
  | Some paren_match => (strip (group1 paren_match s), true)
  | None => (s, false)
  end.

(** Lines 164-167: the minus variants and the leading minus. *)
Definition minus_step (sn : str * bool) : str * bool :=
  let '(s, neg) := sn in
  let s := replace EN_DASH (lit "-") (replace MINUS_SIGN (lit "-") s) in
  if startswith (lit "-") s then (strip (skipn 1 s), true) else (s, neg).

(** Lines 169-186: blanks, the lone dash, the separators, the shape test and
    the sign. *)
Definition shape_step (sn : str * bool) (fmt : number_format) : option str :=
  let '(s, neg) := sn in
  let s := replace NBSP [] (replace SPACE [] s) in
  if str_eqb s (lit "-") || str_eqb s [EM_DASH] || str_eqb s [EN_DASH]
  then Some (lit "0") else
  let s :=
    match fmt with
    | es => replace COMMA (lit ".") (replace DOT [] s)
    | en => replace COMMA [] s
    end in
  if negb (is_match (re_match PLAIN_NUMBER s)) then None else
  Some (if neg then lit "-" ++ s else s).

Definition LPAREN : char := 40.   (* "(" *)
Definition RPAREN : char := 41.   (* ")" *)

(** The class of the group of PARENTHETICAL_NEG. *)
Definition paren_body_char (c : char) : bool :=
  isdecimal c || (c =? COMMA) || (c =? DOT) || isspace c.

(** ** Shapes of number strings *)

(** Digits, then optionally a point, then digits again (possibly none):
    what the pattern of the shape test accepts, its tolerance for a final
    line feed apart. *)
Definition is_plain_number (s : str) : bool :=
  let '(intpart, rest) := span isdecimal s in
  nonempty intpart
  && match rest with
     | [] => true
     | c :: fracpart => (c =? DOT) && forallb isdecimal fracpart
     end.

(** A plain number with an optional leading "-". *)
Definition is_normalized (s : str) : bool :=
  match s with
  | c :: t => if c =? HYPHEN then is_plain_number t else is_plain_number s
  | [] => false
  end.

(** The canonical decimal string of the specification: an optional leading
    "-", digits, and optionally a point followed by at least one
    fractional digit. *)
Definition is_canonical_unsigned (s : str) : bool :=
  let '(intpart, rest) := span isdecimal s in
  nonempty intpart
  && match rest with
     | [] => true
     | c :: fracpart =>
         (c =? DOT) && nonempty fracpart && forallb isdecimal fracpart
     end.

Definition is_canonical_decimal (s : str) : bool :=
  match s with
  | c :: t =>
      if c =? HYPHEN then is_canonical_unsigned t else is_canonical_unsigned s
  | [] => false
  end.

(** ** Exact values of finite numbers *)

Definition signed (negative : bool) (n : N) : Z :=
  if negative then (- Z.of_N n)%Z else Z.of_N n.

(** The value of a finite number in units of [10^e], for an [e] that is at
    most its exponent. *)
Definition units (e : Z) (x : finite) : Z :=
  (signed (d_sign x) (d_int x) * 10 ^ (d_exp x - e))%Z.

(** The least exponent among the numbers, and 0 when none is negative. *)
Definition least_exponent (xs : list finite) : Z :=
  fold_right (fun x m => Z.min (d_exp x) m) 0%Z xs.

Definition total_units (e : Z) (xs : list finite) : Z :=
  fold_right (fun x acc => (units e x + acc)%Z) 0%Z xs.

Definition total_abs_units (e : Z) (xs : list finite) : Z :=
  fold_right (fun x acc => (Z.abs (units e x) + acc)%Z) 0%Z xs.

Definition in_range (e : Z) (xs : list finite) : Prop :=
  Forall (fun x => (e <= d_exp x <= 0)%Z) xs.

(** The numbers that the context's precision adds without rounding: no
    exponent is below [Etiny], and the absolute values, counted in units of
    the last decimal place that occurs, add up to less than [10^prec]. *)
Definition fits (xs : list finite) : bool :=
  let e := least_exponent xs in
  ((Etiny <=? e) && (total_abs_units e xs <? 10 ^ prec))%Z.

(** The finite numbers among the numeric cells of a row. *)
Definition finite_part (dv : Decimal) : list finite :=
  match dv with
  | Fin x => [x]
  | _ => []
  end.

Definition finite_cells (r : row) (fmt : number_format) : list finite :=
  flat_map (fun cell_value => finite_part (snd cell_value))
           (numeric_cells r fmt).

(** The normalized strings of the cells of a row that have one. *)
Definition normalized_cells (r : row) (fmt : number_format) : list str :=
  flat_map (fun c => match normalize_number_string c fmt with
                     | Some text => [text]
                     | None => []
                     end) r.

(** The ASCII digit with the value of a decimal digit. *)
Definition ascii_digit (c : char) : char := 48 + digit_value c.

(** ** Tokens of a cell

    The comma/space-separated tokens of a text: its maximal runs of
    characters that are neither a comma nor white space. *)
Definition is_separator (c : char) : bool := (c =? COMMA) || isspace c.

Fixpoint tokens_from (cur : str) (s : str) : list str :=
  match s with
  | [] => match cur with [] => [] | _ :: _ => [rev cur] end
  | c :: t =>
      if is_separator c then
        match cur with
        | [] => tokens_from [] t
        | _ :: _ => rev cur :: tokens_from [] t
        end
      else tokens_from (c :: cur) t
  end.

Definition tokens (text : str) : list str := tokens_from [] text.

(** The number an ASCII numeral stands for, whatever its length. *)
Definition numeral_value (p : str) : N :=
  fold_left (fun acc c => 10 * acc + (c - 48)) p 0.

(** An ASCII digit string with value at most 255. *)
Definition is_small_numeral (p : str) : bool :=
  forallb is_ascii_digit p && (numeral_value p <=? 255).

(** A token that [is_rgb_artifact] accepts: a small numeral that [int]
    converts. *)
Definition token_ok (p : str) : bool :=
  is_small_numeral p && (List.length p <=? int_max_str_digits)%nat.

(** ** Columns of a table *)

Definition column (t : table) (col_idx : nat) : list cell :=
  map (cell_at col_idx) t.

(** The number of non-empty cells of a column, and how many of them
    [is_rgb_artifact] accepts. *)
Definition non_empty_count (t : table) (col_idx : nat) : nat :=
  List.length (filter has_text (column t col_idx)).

Definition artifact_count (t : table) (col_idx : nat) : nat :=
  List.length (filter is_rgb_artifact (filter has_text (column t col_idx))).

(** The length of the longest prefix of [cols] whose members all satisfy
    [p]. *)
Fixpoint leading_run (p : nat -> bool) (cols : list nat) : nat :=
  match cols with
  | [] => 0
  | j :: rest => if p j then S (leading_run p rest) else 0
  end.

End Shapes.

(* ================================================================== *)
(** * Properties *)
(* ================================================================== *)

Import PyStr Re Dec ExtractTables Shapes.

(** ** The matcher and the matching relation *)

Section MatcherFacts.

Variable A : Type.

Lemma rmatch_Star (r : regex) (st : mstate) (k : mstate -> option A) :
  rmatch (Star r) st k
  = star_loop (rmatch (A:=A) r) k (List.length (m_rest st)) st.
Proof. reflexivity. Qed.

(** A match consumes a prefix of the text ahead and moves the position by
    its length. *)
Lemma matches_consumes (r : regex) (st st' : mstate) :
  matches r st st' ->
  exists w, m_rest st = w ++ m_rest st'
            /\ m_pos st' = (m_pos st + List.length w)%nat.
Proof.
  induction 1.
  - exists []. split; [reflexivity | simpl; lia].
  - exists [c]. simpl. split; [assumption | lia].
  - destruct IHmatches1 as (w1 & E1 & P1), IHmatches2 as (w2 & E2 & P2).
    exists (w1 ++ w2). rewrite E1, E2, <- app_assoc, length_app.
    split; [reflexivity | lia].
  - assumption.
  - assumption.
  - exists []. split; [reflexivity | simpl; lia].
  - destruct IHmatches1 as (w1 & E1 & P1), IHmatches2 as (w2 & E2 & P2).
    exists (w1 ++ w2). rewrite E1, E2, <- app_assoc, length_app.
    split; [reflexivity | lia].
  - exists []. split; [reflexivity | simpl; lia].
  - exists []. split; [reflexivity | simpl; lia].
  - destruct IHmatches as (w & E & P). exists w. simpl. split; assumption.
Qed.

Lemma matches_rest_length (r : regex) (st st' : mstate) :
  matches r st st' ->
  (m_pos st' + List.length (m_rest st') = m_pos st + List.length (m_rest st))%nat.
Proof.
  intros H. destruct (matches_consumes H) as (w & E & P).
  rewrite E, P, length_app. lia.
Qed.

(** Soundness: a result of the matcher comes from the continuation, called
    at the end of a match. *)
Lemma rmatch_sound (r : regex) :
  forall (st : mstate) (k : mstate -> option A) (a : A),
    rmatch r st k = Some a ->
    exists st', matches r st st' /\ k st' = Some a.
Proof.
  induction r as [ | p | r1 IH1 r2 IH2 | r1 IH1 r2 IH2 | r IH | | | r IH];
    intros st k a H.
  - exists st. split; [constructor | exact H].
  - simpl in H. destruct (m_rest st) as [|c t] eqn:E; [discriminate|].
    destruct (p c) eqn:Pc; [|discriminate].
    exists (advance st t). split; [now apply M_Cls with (c := c) | exact H].
  - simpl in H. apply IH1 in H as (st1 & M1 & H).
    apply IH2 in H as (st2 & M2 & H).
    exists st2. split; [now apply M_Cat with (st1 := st1) | exact H].
  - simpl in H. destruct (rmatch r1 st k) as [a1|] eqn:E1.
    + apply IH1 in E1 as (st1 & M1 & K1). exists st1.
      split; [now apply M_AltL | congruence].
    + apply IH2 in H as (st1 & M1 & K1). exists st1.
      split; [now apply M_AltR | exact K1].
  - rewrite rmatch_Star in H.
    revert H. generalize (List.length (m_rest st)). intros fuel. revert st.
    induction fuel as [|fuel IHf]; intros st H; simpl in H.
    + exists st. split; [constructor | exact H].
    + destruct (rmatch r st _) as [a1|] eqn:E1.
      * apply IH in E1 as (st1 & M1 & K1).
        destruct (m_pos st <? m_pos st1)%nat eqn:Lt; [|discriminate].
        apply Nat.ltb_lt in Lt.
        assert (Hs : star_loop (rmatch (A:=A) r) k fuel st1 = Some a) by congruence.
        apply IHf in Hs as (st2 & M2 & K2).
        exists st2. split; [now apply M_StarCons with (st1 := st1) | exact K2].
      * exists st. split; [constructor | exact H].
  - simpl in H. destruct (m_pos st =? 0)%nat eqn:E; [|discriminate].
    apply Nat.eqb_eq in E. exists st. split; [now constructor | exact H].
  - simpl in H. destruct (m_rest st) as [|c [|c' t]] eqn:E.
    + exists st. split; [constructor; now left | exact H].
    + destruct (c =? LF)%N eqn:Ec; [|discriminate].
      apply N.eqb_eq in Ec. subst c.
      exists st. split; [constructor; now right | exact H].
    + discriminate.
  - simpl in H. apply IH in H as (st1 & M1 & K1).
    exists (close_group (m_pos st) st1). split; [now constructor | exact K1].
Qed.

(** The result depends on the continuation only at the ends of matches. *)
Lemma rmatch_ext (r : regex) :
  forall (st : mstate) (k k' : mstate -> option A),
    (forall st', matches r st st' -> k st' = k' st') ->
    rmatch r st k = rmatch r st k'.
Proof.
  induction r as [ | p | r1 IH1 r2 IH2 | r1 IH1 r2 IH2 | r IH | | | r IH];
    intros st k k' H.
  - simpl. apply H. constructor.
  - simpl. destruct (m_rest st) as [|c t] eqn:E; [reflexivity|].
    destruct (p c) eqn:Pc; [|reflexivity].
    apply H. now apply M_Cls with (c := c).
  - simpl. apply IH1. intros st1 M1. apply IH2. intros st2 M2.
    apply H. now apply M_Cat with (st1 := st1).
  - simpl. rewrite (IH1 st k k'), (IH2 st k k'); [reflexivity | |].
    + intros st' M. apply H. now apply M_AltR.
    + intros st' M. apply H. now apply M_AltL.
  - rewrite !rmatch_Star. generalize (List.length (m_rest st)).
    intros fuel. revert st H.
    induction fuel as [|fuel IHf]; intros st H; simpl.
    + apply H. constructor.
    + rewrite (H st) by constructor.
      erewrite IH; [reflexivity|].
      intros st1 M1. simpl.
      destruct (m_pos st <? m_pos st1)%nat eqn:Lt; [|reflexivity].
      apply Nat.ltb_lt in Lt. apply IHf.
      intros st2 M2. apply H. now apply M_StarCons with (st1 := st1).
  - simpl. destruct (m_pos st =? 0)%nat eqn:E; [|reflexivity].
    apply H. constructor. now apply Nat.eqb_eq.
  - simpl. destruct (m_rest st) as [|c [|c' t]] eqn:E.
    + apply H. constructor. now left.
    + destruct (c =? LF)%N eqn:Ec; [|reflexivity].
      apply N.eqb_eq in Ec. subst c. apply H. constructor. now right.
    + reflexivity.
  - simpl. apply IH. intros st1 M1. apply H. now constructor.
Qed.

(** No match, no result. *)
Lemma rmatch_none (r : regex) (st : mstate) (k : mstate -> option A) :
  (forall st', matches r st st' -> k st' = None) ->
  rmatch r st k = None.
Proof.
  intros H. destruct (rmatch r st k) as [a|] eqn:E; [|reflexivity].
  apply rmatch_sound in E as (st' & M & K). rewrite (H st' M) in K. discriminate.
Qed.

(** The fuel of a star never runs out: one more unit changes nothing once
    the fuel covers the text ahead. *)
Lemma star_loop_fuel_step (r : regex) (k : mstate -> option A) :
  forall (fuel : nat) (st : mstate),
    (List.length (m_rest st) <= fuel)%nat ->
    star_loop (rmatch (A:=A) r) k (S fuel) st
    = star_loop (rmatch (A:=A) r) k fuel st.
Proof.
  induction fuel as [|fuel IHf]; intros st Hle.
  - simpl. rewrite rmatch_none; [reflexivity|].
    intros st1 M1. apply matches_rest_length in M1.
    destruct (m_pos st <? m_pos st1)%nat eqn:Lt; [|reflexivity].
    apply Nat.ltb_lt in Lt. lia.
  - change (star_loop (rmatch (A:=A) r) k (S (S fuel)) st)
      with (match rmatch r st
                    (fun st1 => if (m_pos st <? m_pos st1)%nat
                                then star_loop (rmatch (A:=A) r) k (S fuel) st1
                                else None) with
            | Some a => Some a
            | None => k st
            end).
    change (star_loop (rmatch (A:=A) r) k (S fuel) st)
      with (match rmatch r st
                    (fun st1 => if (m_pos st <? m_pos st1)%nat
                                then star_loop (rmatch (A:=A) r) k fuel st1
                                else None) with
            | Some a => Some a
            | None => k st
            end).
    erewrite rmatch_ext; [reflexivity|].
    intros st1 M1. cbv beta.
    destruct (m_pos st <? m_pos st1)%nat eqn:Lt; [|reflexivity].
    apply Nat.ltb_lt in Lt. apply matches_rest_length in M1.
    apply IHf. lia.
Qed.

Lemma star_loop_fuel (r : regex) (k : mstate -> option A) (st : mstate) :
  forall extra : nat,
    star_loop (rmatch (A:=A) r) k (List.length (m_rest st) + extra) st
    = star_loop (rmatch (A:=A) r) k (List.length (m_rest st)) st.
Proof.
  induction extra as [|extra IH].
  - now rewrite Nat.add_0_r.
  - rewrite Nat.add_succ_r, star_loop_fuel_step by lia. exact IH.
Qed.

(** Completeness: when the pattern has a match after which the continuation
    succeeds, the matcher succeeds (with its first such match). *)
Lemma rmatch_complete (r : regex) (st st' : mstate) :
  matches r st st' ->
  forall (k : mstate -> option A) (a : A),
    k st' = Some a -> exists b, rmatch r st k = Some b.
Proof.
  induction 1 as [st | p st c t E Pc | r1 r2 st st1 st2 M1 IH1 M2 IH2
                 | r1 r2 st st1 M1 IH1 | r1 r2 st st1 M1 IH1 | r st
                 | r st st1 st2 M1 IH1 Lt M2 IH2 | st E | st E | r st st1 M1 IH1];
    intros k a K.
  - exists a. exact K.
  - exists a. simpl. now rewrite E, Pc.
  - destruct (IH2 k a K) as (b & Hb).
    destruct (IH1 (fun st1 => rmatch r2 st1 k) b Hb) as (b' & Hb').
    exists b'. exact Hb'.
  - destruct (IH1 k a K) as (b & Hb). exists b. simpl. now rewrite Hb.
  - destruct (IH1 k a K) as (b & Hb). simpl.
    destruct (rmatch r1 st k) as [b1|]; [now exists b1 | now exists b].
  - rewrite rmatch_Star. destruct (List.length (m_rest st)) as [|n]; simpl.
    + now exists a.
    + destruct (rmatch r st _) as [b|]; [now exists b | now exists a].
  - destruct (IH2 k a K) as (b & Hb). rewrite rmatch_Star in Hb |- *.
    pose proof (matches_rest_length M1) as L.
    destruct (List.length (m_rest st)) as [|n] eqn:En; [lia|].
    assert (Hn : (List.length (m_rest st1) <= n)%nat) by lia.
    simpl.
    destruct (IH1 (fun st1' => if (m_pos st <? m_pos st1')%nat
                               then star_loop (rmatch (A:=A) r) k n st1'
                               else None) b) as (b' & Hb').
    { apply Nat.ltb_lt in Lt. rewrite Lt.
      replace n with (List.length (m_rest st1) + (n - List.length (m_rest st1)))%nat
        by lia.
      now rewrite star_loop_fuel. }
    rewrite Hb'. now exists b'.
  - exists a. simpl. apply Nat.eqb_eq in E. now rewrite E.
  - exists a. simpl. destruct E as [E|E]; rewrite E; [exact K|].
    now rewrite N.eqb_refl.
  - destruct (IH1 (fun st1 => k (close_group (m_pos st) st1)) a K) as (b & Hb).
    now exists b.
Qed.

End MatcherFacts.

(** ** Strings *)

Lemma forallb_rev (q : char -> bool) (s : str) :
  forallb q (rev s) = forallb q s.
Proof.
  induction s as [|c s IH]; simpl; [reflexivity|].
  rewrite forallb_app, IH. simpl. rewrite andb_true_r. apply andb_comm.
Qed.

Lemma existsb_rev (q : char -> bool) (s : str) :
  existsb q (rev s) = existsb q s.
Proof.
  induction s as [|c s IH]; simpl; [reflexivity|].
  rewrite existsb_app, IH. simpl. rewrite orb_false_r. apply orb_comm.
Qed.

Section StringFacts.

Variable p : char -> bool.

Lemma dropwhile_app (a b : str) :
  dropwhile p (a ++ b)
  = if forallb p a then dropwhile p b else dropwhile p a ++ b.
Proof.
  induction a as [|c a IH]; simpl; [reflexivity|].
  destruct (p c); simpl; [exact IH | reflexivity].
Qed.

Lemma dropwhile_idem (s : str) : dropwhile p (dropwhile p s) = dropwhile p s.
Proof.
  induction s as [|c s IH]; simpl; [reflexivity|].
  destruct (p c) eqn:E; [exact IH | simpl; now rewrite E].
Qed.

Lemma dropwhile_all (s : str) : forallb p s = true -> dropwhile p s = [].
Proof.
  induction s as [|c s IH]; simpl; [reflexivity|].
  destruct (p c); simpl; [exact IH | discriminate].
Qed.

Lemma rstrip_with_app_all (s a : str) :
  forallb p a = true -> rstrip_with p (s ++ a) = rstrip_with p s.
Proof.
  intros H. unfold rstrip_with. rewrite rev_app_distr, dropwhile_app.
  now rewrite forallb_rev, H.
Qed.

Lemma rstrip_with_snoc (s : str) (c : char) :
  p c = false -> rstrip_with p (s ++ [c]) = s ++ [c].
Proof.
  intros H. unfold rstrip_with. rewrite rev_app_distr. simpl. rewrite H.
  simpl. now rewrite rev_involutive.
Qed.

Lemma rstrip_with_idem (s : str) :
  rstrip_with p (rstrip_with p s) = rstrip_with p s.
Proof.
  unfold rstrip_with. now rewrite rev_involutive, dropwhile_idem.
Qed.

Lemma rstrip_with_cons (c : char) (s : str) :
  rstrip_with p (c :: s)
  = if forallb p s then (if p c then [] else [c]) else c :: rstrip_with p s.
Proof.
  unfold rstrip_with. simpl. rewrite dropwhile_app, forallb_rev.
  destruct (forallb p s) eqn:E.
  - simpl. destruct (p c); reflexivity.
  - rewrite rev_app_distr. reflexivity.
Qed.

Lemma rstrip_with_all (s : str) : forallb p s = true -> rstrip_with p s = [].
Proof.
  intros H. unfold rstrip_with. rewrite dropwhile_all; [reflexivity|].
  now rewrite forallb_rev.
Qed.

(** Stripping on the left and on the right commute. *)
Lemma lstrip_rstrip_comm (s : str) :
  lstrip_with p (rstrip_with p s) = rstrip_with p (lstrip_with p s).
Proof.
  unfold lstrip_with. induction s as [|c s IH]; [reflexivity|].
  rewrite rstrip_with_cons. simpl. destruct (p c) eqn:Pc.
  - destruct (forallb p s) eqn:E.
    + simpl. rewrite dropwhile_all by exact E. reflexivity.
    + simpl. rewrite Pc. exact IH.
  - rewrite rstrip_with_cons. destruct (forallb p s); simpl; now rewrite Pc.
Qed.

(** What is dropped satisfies the predicate, so a property of the other
    characters survives. *)
Lemma existsb_dropwhile (q : char -> bool) (s : str) :
  (forall c, q c = true -> p c = false) ->
  existsb q (dropwhile p s) = existsb q s.
Proof.
  intros H. induction s as [|c s IH]; simpl; [reflexivity|].
  destruct (p c) eqn:Pc; simpl; [|reflexivity].
  destruct (q c) eqn:Qc; [|exact IH].
  apply H in Qc. congruence.
Qed.

Lemma existsb_rstrip_with (q : char -> bool) (s : str) :
  (forall c, q c = true -> p c = false) ->
  existsb q (rstrip_with p s) = existsb q s.
Proof.
  intros H. unfold rstrip_with.
  now rewrite existsb_rev, existsb_dropwhile, existsb_rev.
Qed.

Lemma forallb_dropwhile (q : char -> bool) (s : str) :
  forallb q s = true -> forallb q (dropwhile p s) = true.
Proof.
  induction s as [|c s IH]; simpl; [reflexivity|].
  intros H. apply andb_true_iff in H as [Hc Hs].
  destruct (p c); simpl; [now apply IH | now rewrite Hc, Hs].
Qed.

Lemma forallb_rstrip_with (q : char -> bool) (s : str) :
  forallb q s = true -> forallb q (rstrip_with p s) = true.
Proof.
  intros H. unfold rstrip_with. rewrite forallb_rev.
  apply forallb_dropwhile. now rewrite forallb_rev.
Qed.

End StringFacts.

Lemma last_cons_same (c : char) (t : str) : last (c :: t) c = last t c.
Proof. destruct t; reflexivity. Qed.

Lemma rstrip_with_cons_keep (p : char -> bool) (c : char) (s : str) :
  p c = false -> rstrip_with p (c :: s) = c :: rstrip_with p s.
Proof.
  intros H. rewrite rstrip_with_cons, H.
  destruct (forallb p s) eqn:E; [|reflexivity].
  now rewrite rstrip_with_all.
Qed.

Lemma rstrip_with_keeps (p : char -> bool) (c : char) (t : str) :
  p (last t c) = false -> rstrip_with p (c :: t) = c :: t.
Proof.
  intros H. rewrite <- last_cons_same in H.
  assert (N : c :: t <> []) by discriminate.
  rewrite (app_removelast_last c N) at 1 2.
  now apply rstrip_with_snoc.
Qed.

Lemma strip_keeps (c : char) (t : str) :
  isspace c = false -> isspace (last t c) = false -> strip (c :: t) = c :: t.
Proof.
  intros Hc Hl. unfold strip, lstrip_with. simpl. rewrite Hc.
  now apply rstrip_with_keeps.
Qed.

Lemma strip_cons_keep (c : char) (s : str) :
  isspace c = false -> strip (c :: s) = c :: rstrip_with isspace s.
Proof.
  intros Hc. unfold strip, lstrip_with. simpl. rewrite Hc.
  now apply rstrip_with_cons_keep.
Qed.

Lemma strip_pad_l (a s : str) :
  forallb isspace a = true -> strip (a ++ s) = strip s.
Proof.
  intros H. unfold strip, lstrip_with. now rewrite dropwhile_app, H.
Qed.

Lemma strip_pad_r (s a : str) :
  forallb isspace a = true -> strip (s ++ a) = strip s.
Proof.
  intros H. unfold strip.
  rewrite <- !lstrip_rstrip_comm. now rewrite rstrip_with_app_all.
Qed.

Lemma strip_rstrip (s : str) : strip (rstrip_with isspace s) = strip s.
Proof.
  unfold strip. rewrite lstrip_rstrip_comm. apply rstrip_with_idem.
Qed.

Lemma strip_idem (s : str) : strip (strip s) = strip s.
Proof.
  unfold strip at 2. rewrite strip_rstrip. unfold strip, lstrip_with.
  now rewrite dropwhile_idem.
Qed.

Lemma existsb_strip (q : char -> bool) (s : str) :
  (forall c, q c = true -> isspace c = false) ->
  existsb q (strip s) = existsb q s.
Proof.
  intros H. unfold strip, lstrip_with.
  now rewrite existsb_rstrip_with, existsb_dropwhile.
Qed.

Lemma forallb_strip (q : char -> bool) (s : str) :
  forallb q s = true -> forallb q (strip s) = true.
Proof.
  intros H. unfold strip, lstrip_with.
  now apply forallb_rstrip_with, forallb_dropwhile.
Qed.

(** [replace] *)

Lemma replace_id (old : char) (new s : str) :
  forallb (fun c => negb (c =? old)%N) s = true -> replace old new s = s.
Proof.
  unfold replace. induction s as [|c s IH]; simpl; [reflexivity|].
  intros H. apply andb_true_iff in H as [Hc Hs].
  destruct (c =? old)%N; [discriminate|]. simpl. now rewrite IH.
Qed.

Lemma existsb_replace (q : char -> bool) (old : char) (new s : str) :
  existsb q s = true ->
  q old = false \/ existsb q new = true ->
  existsb q (replace old new s) = true.
Proof.
  unfold replace. intros H Hn. induction s as [|c s IH]; simpl in *; [discriminate|].
  rewrite existsb_app. apply orb_true_iff in H as [Hc|Hs].
  - destruct (c =? old)%N eqn:E.
    + apply N.eqb_eq in E. subst c. destruct Hn as [Hn|Hn]; [congruence|].
      now rewrite Hn.
    + simpl. now rewrite Hc.
  - rewrite (IH Hs). apply orb_true_r.
Qed.

Lemma forallb_replace (q : char -> bool) (old : char) (new s : str) :
  forallb q s = true -> forallb q new = true ->
  forallb q (replace old new s) = true.
Proof.
  unfold replace. intros H Hn. induction s as [|c s IH]; simpl in *; [reflexivity|].
  apply andb_true_iff in H as [Hc Hs]. rewrite forallb_app, (IH Hs), andb_true_r.
  destruct (c =? old)%N; [exact Hn | simpl; now rewrite Hc].
Qed.

Lemma forallb_impl (q q' : char -> bool) (s : str) :
  (forall c, q c = true -> q' c = true) ->
  forallb q s = true -> forallb q' s = true.
Proof.
  intros H. induction s as [|c s IH]; simpl; [reflexivity|].
  intros E. apply andb_true_iff in E as [Hc Hs].
  now rewrite (H c Hc), (IH Hs).
Qed.

Lemma forallb_skipn (q : char -> bool) (n : nat) (s : str) :
  forallb q s = true -> forallb q (skipn n s) = true.
Proof.
  revert s. induction n as [|n IH]; intros [|c s] H; simpl; try reflexivity.
  - exact H.
  - simpl in H. apply andb_true_iff in H as [_ Hs]. now apply IH.
Qed.

Lemma forallb_firstn (q : char -> bool) (n : nat) (s : str) :
  forallb q s = true -> forallb q (firstn n s) = true.
Proof.
  revert s. induction n as [|n IH]; intros [|c s] H; simpl; try reflexivity.
  simpl in H. apply andb_true_iff in H as [Hc Hs]. now rewrite Hc, IH.
Qed.

(** ** Character classes *)

Lemma class_ne (q : char -> bool) (x c : char) :
  q x = false -> q c = true -> c <> x.
Proof. intros Hx Hc E. congruence. Qed.

Lemma isspace_cases (c : char) :
  isspace c = true ->
  In c [9; 10; 11; 12; 13; 28; 29; 30; 31; 32; 133; 160; 5760; 8192; 8193;
        8194; 8195; 8196; 8197; 8198; 8199; 8200; 8201; 8202; 8232; 8233;
        8239; 8287; 12288]%N.
Proof.
  unfold isspace, between. intros H.
  repeat (apply orb_true_iff in H as [H|H]);
    try (apply andb_true_iff in H as [H1 H2];
         apply N.leb_le in H1; apply N.leb_le in H2);
    try apply N.eqb_eq in H; simpl; lia.
Qed.

Lemma digit_not_space (c : char) : isdecimal c = true -> isspace c = false.
Proof.
  intros H. destruct (isspace c) eqn:E; [|reflexivity].
  apply isspace_cases in E. simpl in E.
  repeat (destruct E as [E|E]; [subst c; vm_compute in H; discriminate|]).
  destruct E.
Qed.

(** ** Inversion of matches *)

Lemma matches_cls_inv (p : char -> bool) (pos : nat) (rest : str)
      (g : option (nat * nat)) (st' : mstate) :
  matches (Cls p) (MState pos rest g) st' ->
  exists c t, rest = c :: t /\ p c = true /\ st' = MState (S pos) t g.
Proof.
  intros H. inversion H; subst. simpl in *. now exists c, t.
Qed.

Lemma matches_star_cls_inv (p : char -> bool) (st st' : mstate) :
  matches (Star (Cls p)) st st' ->
  exists w, m_rest st = w ++ m_rest st' /\ forallb p w = true
            /\ m_pos st' = (m_pos st + List.length w)%nat
            /\ m_grp st' = m_grp st.
Proof.
  intros H. remember (Star (Cls p)) as r eqn:E.
  induction H; try discriminate.
  - exists []. simpl. repeat split; lia.
  - injection E as ->. specialize (IHmatches2 eq_refl).
    destruct IHmatches2 as (w & E2 & F & P & G).
    inversion H as [ | p0 st0 c t Er Pc | | | | | | | | ]; subst.
    simpl in *.
    exists (c :: w). simpl. rewrite Er, E2, Pc, F, P, G.
    repeat split; lia.
Qed.

Lemma matches_star_cls_inv' (p : char -> bool) (pos : nat) (rest : str)
      (g : option (nat * nat)) (st' : mstate) :
  matches (Star (Cls p)) (MState pos rest g) st' ->
  exists w t, rest = w ++ t /\ forallb p w = true
              /\ st' = MState (pos + List.length w) t g.
Proof.
  intros H. apply matches_star_cls_inv in H as (w & E & F & P & G).
  destruct st' as [pos' rest' g']. simpl in *. subst.
  now exists w, rest'.
Qed.

Lemma matches_star_cls_intro (p : char -> bool) (w t : str) :
  forallb p w = true ->
  forall (pos : nat) (g : option (nat * nat)),
    matches (Star (Cls p)) (MState pos (w ++ t) g)
            (MState (pos + List.length w) t g).
Proof.
  induction w as [|c w IH]; simpl; intros F pos g.
  - rewrite Nat.add_0_r. constructor.
  - apply andb_true_iff in F as [Fc Fw].
    apply M_StarCons with (st1 := MState (S pos) (w ++ t) g).
    + now apply (@M_Cls p (MState pos (c :: w ++ t) g) c (w ++ t)).
    + simpl. lia.
    + replace (pos + S (List.length w))%nat with (S pos + List.length w)%nat by lia.
      now apply IH.
Qed.

Lemma matches_cls_intro (p : char -> bool) (c : char) (t : str) (pos : nat)
      (g : option (nat * nat)) :
  p c = true ->
  matches (Cls p) (MState pos (c :: t) g) (MState (S pos) t g).
Proof.
  intros H. now apply (@M_Cls p (MState pos (c :: t) g) c t).
Qed.

Ltac minv :=
  repeat match goal with
  | H : matches (Cat _ _) _ _ |- _ => inversion H; subst; clear H
  | H : matches (Alt _ _) _ _ |- _ => inversion H; subst; clear H
  | H : matches Eps _ _ |- _ => inversion H; subst; clear H
  | H : matches Bol _ _ |- _ => inversion H; subst; clear H
  | H : matches Eol _ _ |- _ => inversion H; subst; clear H
  | H : matches (Grp _) _ _ |- _ => inversion H; subst; clear H
  | H : matches (Cls _) (MState _ _ _) _ |- _ =>
      apply matches_cls_inv in H; destruct H as (? & ? & ? & ? & ?); subst
  | H : matches (Star (Cls _)) (MState _ _ _) _ |- _ =>
      apply matches_star_cls_inv' in H; destruct H as (? & ? & ? & ? & ?); subst
  | H : matches _ (close_group _ _) _ |- _ =>
      unfold close_group in H; cbn [m_pos m_rest m_grp] in H
  | H : matches (Cls _) ?st _ |- _ => is_var st; destruct st
  | H : matches (Star (Cls _)) ?st _ |- _ => is_var st; destruct st
  end.

(** ** The patterns of the module *)

(** [re.search(r"\d", s)] finds a digit when there is one. *)
Lemma search_digit (s : str) :
  is_match (re_search d s) = existsb isdecimal s.
Proof.
  unfold re_search. generalize 0%nat.
  induction s as [|c s IH]; intros pos; simpl; [reflexivity|].
  destruct (isdecimal c); simpl; [reflexivity | apply IH].
Qed.

(** A pattern that starts with [^] is replaced at index 0 or not at all. *)
Lemma sub_from_anchored (r : regex) (fuel pos : nat) (s : str) :
  (0 < pos)%nat -> sub_from (Cat Bol r) fuel pos s = s.
Proof.
  revert pos s. induction fuel as [|fuel IH]; intros pos s Hpos; simpl;
    [reflexivity|].
  destruct pos as [|pos]; [lia|]. simpl.
  destruct s as [|c s]; [reflexivity|]. rewrite IH by lia. reflexivity.
Qed.

Lemma re_sub_anchored (r : regex) (s : str) :
  re_sub_empty (Cat Bol r) s
  = match re_match (Cat Bol r) s with
    | Some m => if (0 <? m_pos m)%nat then m_rest m else s
    | None => s
    end.
Proof.
  unfold re_sub_empty, re_match.
  change (sub_from (Cat Bol r) (S (List.length s)) 0 s)
    with (match rmatch (Cat Bol r) (at_start 0 s) (@Some mstate) with
          | Some m =>
              if (0 <? m_pos m)%nat
              then sub_from (Cat Bol r) (List.length s) (m_pos m) (m_rest m)
              else match s with
                   | [] => []
                   | c :: t => c :: sub_from (Cat Bol r) (List.length s) 1 t
                   end
          | None =>
              match s with
              | [] => []
              | c :: t => c :: sub_from (Cat Bol r) (List.length s) 1 t
              end
          end).
  destruct (rmatch (Cat Bol r) (at_start 0 s) (@Some mstate)) as [m|].
  - destruct (0 <? m_pos m)%nat eqn:E.
    + apply Nat.ltb_lt in E. now apply sub_from_anchored.
    + destruct s as [|c t]; [reflexivity|]. now rewrite sub_from_anchored by lia.
  - destruct s as [|c t]; [reflexivity|]. now rewrite sub_from_anchored by lia.
Qed.

Lemma re_match_sound (r : regex) (s : str) (m : mstate) :
  re_match r s = Some m -> matches r (at_start 0 s) m.
Proof.
  unfold re_match. intros H. apply rmatch_sound in H as (st' & M & E).
  now injection E as ->.
Qed.

Lemma re_match_complete (r : regex) (s : str) (m : mstate) :
  matches r (at_start 0 s) m -> is_match (re_match r s) = true.
Proof.
  unfold re_match. intros H.
  destruct (rmatch_complete H (@Some mstate) eq_refl) as (b & E).
  now rewrite E.
Qed.

Lemma re_match_none (r : regex) (s : str) :
  (forall m, ~ matches r (at_start 0 s) m) -> re_match r s = None.
Proof.
  intros H. destruct (re_match r s) as [m|] eqn:E; [|reflexivity].
  apply re_match_sound in E. now apply H in E.
Qed.


Ltac eqb_subst :=
  repeat match goal with
  | H : (_ =? _)%N = true |- _ => apply N.eqb_eq in H; try subst
  end.

(** Splitting [c :: t = w ++ rest] on whether [w] is empty. *)
Ltac head_split H w :=
  destruct w; simpl in H; injection H as ? ?; subst.

Lemma currency_prefix_none (c : char) (t : str) :
  isspace c = false -> one_of (lit "PMU$") c = false ->
  re_match CURRENCY_PREFIX (c :: t) = None.
Proof.
  intros Hs Hc. apply re_match_none. intros m M.
  cbv -[isspace isdecimal N.eqb] in M.
  minv.
  all: match goal with
       | H : _ :: _ = ?w ++ _, F : forallb isspace ?w = true |- _ =>
           head_split H w;
           [ eqb_subst; vm_compute in Hc; discriminate
           | simpl in F; rewrite Hs in F; discriminate ]
       end.
Qed.

Lemma currency_sub_id (c : char) (t : str) :
  isspace c = false -> one_of (lit "PMU$") c = false ->
  re_sub_empty CURRENCY_PREFIX (c :: t) = c :: t.
Proof.
  intros Hs Hc. unfold CURRENCY_PREFIX at 1.
  rewrite re_sub_anchored.
  change (Cat Bol _) with CURRENCY_PREFIX.
  now rewrite currency_prefix_none.
Qed.

(** [span] *)

Lemma span_all (p : char -> bool) (a : str) :
  forallb p a = true -> span p a = (a, []).
Proof.
  induction a as [|c a IH]; simpl; [reflexivity|].
  intros H. apply andb_true_iff in H as [Hc Ha]. now rewrite Hc, IH.
Qed.

Lemma span_app_stop (p : char -> bool) (a : str) (c : char) (t : str) :
  forallb p a = true -> p c = false -> span p (a ++ c :: t) = (a, c :: t).
Proof.
  induction a as [|x a IH]; simpl; intros Ha Hc.
  - now rewrite Hc.
  - apply andb_true_iff in Ha as [Hx Ha]. now rewrite Hx, IH.
Qed.

Lemma span_decomp (p : char -> bool) (s : str) :
  s = fst (span p s) ++ snd (span p s)
  /\ forallb p (fst (span p s)) = true
  /\ match snd (span p s) with [] => True | c :: _ => p c = false end.
Proof.
  induction s as [|c s (E & F & N)]; simpl; [easy|].
  destruct (p c) eqn:Pc; simpl.
  - destruct (span p s) as [a b]. simpl in *. rewrite Pc, F.
    repeat split; [congruence | exact N].
  - now rewrite Pc.
Qed.

(** The shape [is_plain_number] spelled out. *)
Lemma is_plain_number_intro (c : char) (ip mid fp : str) :
  isdecimal c = true -> forallb isdecimal ip = true ->
  mid = [] \/ mid = [DOT] -> forallb isdecimal fp = true ->
  is_plain_number (c :: ip ++ mid ++ fp) = true.
Proof.
  intros Hc Hip [->| ->] Hfp; unfold is_plain_number.
  - rewrite span_all; [reflexivity|]. simpl. now rewrite Hc, forallb_app, Hip, Hfp.
  - change (c :: ip ++ [DOT] ++ fp) with ((c :: ip) ++ DOT :: fp).
    rewrite span_app_stop; [|simpl; now rewrite Hc, Hip | reflexivity].
    simpl. now rewrite Hfp.
Qed.

Lemma is_plain_number_elim (s : str) :
  is_plain_number s = true ->
  exists (c : char) (ip mid fp : str),
    s = c :: ip ++ mid ++ fp
    /\ isdecimal c = true /\ forallb isdecimal ip = true
    /\ (mid = [] \/ mid = [DOT]) /\ forallb isdecimal fp = true.
Proof.
  unfold is_plain_number. destruct (span_decomp isdecimal s) as (E & F & N).
  destruct (span isdecimal s) as [a b]. simpl in *.
  destruct a as [|c ip]; [discriminate|]. simpl in F.
  apply andb_true_iff in F as [Hc Hip]. simpl.
  destruct b as [|x fp].
  - intros _. exists c, ip, [], []. rewrite E. simpl. now repeat split; auto.
  - intros H. apply andb_true_iff in H as [Hx Hfp]. apply N.eqb_eq in Hx. subst x.
    exists c, ip, [DOT], fp. rewrite E. simpl. now repeat split; auto.
Qed.

(** The shape test accepts exactly: digits, an optional point, digits, and
    possibly one final line feed. *)
Lemma plain_match_sound (s : str) :
  is_match (re_match PLAIN_NUMBER s) = true ->
  exists s0 tail : str,
    s = s0 ++ tail /\ is_plain_number s0 = true /\ (tail = [] \/ tail = [LF]).
Proof.
  destruct (re_match PLAIN_NUMBER s) as [m|] eqn:E; [intros _ | discriminate].
  apply re_match_sound in E.
  cbv -[isspace isdecimal N.eqb] in E.
  minv; eqb_subst.
  - match goal with
    | |- exists _ _, ?c :: ?ip ++ 46%N :: ?fp ++ ?tl = _ /\ _ =>
        exists (c :: ip ++ [DOT] ++ fp), tl
    end.
    split; [simpl; now rewrite <- !app_assoc|].
    split; [apply is_plain_number_intro; auto | assumption].
  - match goal with
    | |- exists _ _, ?c :: ?ip ++ ?fp ++ ?tl = _ /\ _ =>
        exists (c :: ip ++ [] ++ fp), tl
    end.
    split; [simpl; now rewrite <- !app_assoc|].
    split; [apply is_plain_number_intro; auto | assumption].
Qed.

Lemma plain_match_complete (s : str) :
  is_plain_number s = true -> is_match (re_match PLAIN_NUMBER s) = true.
Proof.
  intros H. apply is_plain_number_elim in H as (c & ip & mid & fp & -> & Hc & Hip & Hmid & Hfp).
  apply re_match_complete
    with (m := MState (S (List.length ip) + List.length mid + List.length fp) [] None).
  unfold PLAIN_NUMBER, Plus, Opt, at_start.
  apply M_Cat with (st1 := MState 0 (c :: ip ++ mid ++ fp) None);
    [now constructor|].
  apply M_Cat with (st1 := MState (S (List.length ip)) (mid ++ fp) None).
  { apply M_Cat with (st1 := MState 1 (ip ++ mid ++ fp) None).
    - now apply matches_cls_intro.
    - now apply (matches_star_cls_intro isdecimal ip (mid ++ fp)). }
  apply M_Cat with (st1 := MState (S (List.length ip) + List.length mid) fp None).
  { destruct Hmid as [->| ->]; simpl.
    - rewrite Nat.add_0_r. apply M_AltR. constructor.
    - rewrite Nat.add_1_r. apply M_AltL. apply matches_cls_intro. reflexivity. }
  apply M_Cat with (st1 := MState (S (List.length ip) + List.length mid + List.length fp) [] None).
  - rewrite <- (app_nil_r fp) at 1.
    now apply (matches_star_cls_intro isdecimal fp []).
  - constructor. now left.
Qed.

Lemma no_lf_snoc (s0 : str) : contains LF (s0 ++ [LF]) = true.
Proof.
  unfold contains. rewrite existsb_app. simpl. apply orb_true_r.
Qed.

Lemma plain_match_no_lf (s : str) :
  contains LF s = false ->
  is_match (re_match PLAIN_NUMBER s) = is_plain_number s.
Proof.
  intros H. destruct (is_plain_number s) eqn:E.
  - now apply plain_match_complete.
  - destruct (is_match (re_match PLAIN_NUMBER s)) eqn:M; [|reflexivity].
    apply plain_match_sound in M as (s0 & tail & -> & P & [->| ->]).
    + rewrite app_nil_r in E. congruence.
    + rewrite no_lf_snoc in H. discriminate.
Qed.

Lemma is_plain_number_chars (s : str) :
  is_plain_number s = true ->
  forallb (fun c => isdecimal c || (c =? DOT)%N) s = true.
Proof.
  intros H. apply is_plain_number_elim in H as (c & ip & mid & fp & -> & Hc & Hip & Hmid & Hfp).
  simpl. rewrite Hc. simpl. rewrite !forallb_app.
  rewrite (forallb_impl _ _ _ (fun x Hx => proj2 (orb_true_iff _ _) (or_introl Hx)) Hip).
  rewrite (forallb_impl _ _ _ (fun x Hx => proj2 (orb_true_iff _ _) (or_introl Hx)) Hfp).
  destruct Hmid as [->| ->]; reflexivity.
Qed.

Lemma PARENTHETICAL_NEG_eq :
  PARENTHETICAL_NEG
  = Cat Bol (Cat (Star (Cls isspace)) (Cat (Cls (N.eqb LPAREN))
      (Cat (Star (Cls isspace))
        (Cat (Grp (Cat (Cls paren_body_char) (Star (Cls paren_body_char))))
          (Cat (Star (Cls isspace)) (Cat (Cls (N.eqb RPAREN))
            (Cat (Star (Cls isspace)) Eol))))))).
Proof. reflexivity. Qed.

Lemma slice_middle (a g b : str) :
  slice (List.length a) (List.length a + List.length g) (a ++ g ++ b) = g.
Proof.
  unfold slice. rewrite skipn_app, skipn_all, Nat.sub_diag. simpl.
  replace (List.length a + List.length g - List.length a)%nat
    with (List.length g + 0)%nat by lia.
  rewrite firstn_app_2. simpl. apply app_nil_r.
Qed.

Lemma paren_match_inv (s : str) (m : mstate) :
  re_match PARENTHETICAL_NEG s = Some m ->
  exists a0 a1 g a2 a3 tail : str,
    s = a0 ++ LPAREN :: a1 ++ g ++ a2 ++ RPAREN :: a3 ++ tail
    /\ forallb isspace a0 = true /\ forallb isspace a1 = true
    /\ forallb paren_body_char g = true /\ g <> []
    /\ forallb isspace a2 = true /\ forallb isspace a3 = true
    /\ (tail = [] \/ tail = [LF])
    /\ group1 m s = g.
Proof.
  intros E. apply re_match_sound in E. rewrite PARENTHETICAL_NEG_eq in E.
  unfold at_start in E.
  minv; eqb_subst.
  match goal with
  | |- exists _ _ _ _ _ _,
         ?a0 ++ LPAREN :: ?a1 ++ ?c :: ?g ++ ?a2 ++ RPAREN :: ?a3 ++ ?tl = _ /\ _ =>
      exists a0, a1, (c :: g), a2, a3, tl
  end.
  simpl in *. repeat (split; [first [assumption | reflexivity | discriminate
                                    | now rewrite H5, H9] |]).
  unfold group1. cbn [m_grp].
  match goal with
  | |- slice ?i ?j (?a0 ++ LPAREN :: ?a1 ++ ?c :: ?g ++ ?rest) = _ =>
      change (a0 ++ LPAREN :: a1 ++ c :: g ++ rest)
        with (a0 ++ (LPAREN :: a1) ++ (c :: g) ++ rest);
      rewrite (app_assoc a0);
      replace i with (List.length (a0 ++ LPAREN :: a1))
        by (rewrite length_app; simpl; lia);
      replace j with (List.length (a0 ++ LPAREN :: a1) + List.length (c :: g))%nat
        by (rewrite length_app; simpl; lia)
  end.
  apply slice_middle.
Qed.

(** A text that ends with a character that is not a blank. *)
Lemma snoc_eq_blank_tail (b pre w : str) (c c' : char) :
  isspace c = false -> forallb isspace w = true ->
  b ++ [c] = pre ++ c' :: w -> w = [] /\ b = pre /\ c = c'.
Proof.
  intros Hc Hw E. destruct w as [|x w] using rev_ind.
  - apply app_inj_tail in E as [-> ->]. auto.
  - clear IHw. rewrite forallb_app in Hw. simpl in Hw.
    apply andb_true_iff in Hw as [_ Hx]. rewrite andb_true_r in Hx.
    change (pre ++ c' :: w ++ [x]) with (pre ++ (c' :: w) ++ [x]) in E.
    rewrite app_assoc in E. apply app_inj_tail in E as [_ ->]. congruence.
Qed.

Lemma paren_step_wrapped (body : str) :
  forallb paren_body_char body = true -> body <> [] ->
  paren_step (LPAREN :: body ++ [RPAREN]) = (strip body, true).
Proof.
  intros K Hne. unfold paren_step.
  destruct (re_match PARENTHETICAL_NEG (LPAREN :: body ++ [RPAREN])) as [m|] eqn:E.
  - apply paren_match_inv in E
      as (a0 & a1 & g & a2 & a3 & tail & E & S0 & S1 & Kg & Ng & S2 & S3 & T & G).
    rewrite G. f_equal.
    destruct a0 as [|x a0]; simpl in E.
    2:{ injection E as <- _. simpl in S0. discriminate. }
    injection E as E.
    assert (Hw : forallb isspace (a3 ++ tail) = true).
    { rewrite forallb_app, S3. destruct T as [->| ->]; reflexivity. }
    replace (a1 ++ g ++ a2 ++ RPAREN :: a3 ++ tail)
      with ((a1 ++ g ++ a2) ++ RPAREN :: (a3 ++ tail)) in E
      by now rewrite <- !app_assoc.
    apply snoc_eq_blank_tail in E as (_ & -> & _); [|reflexivity|exact Hw].
    now rewrite strip_pad_l, strip_pad_r.
  - exfalso.
    assert (M : is_match (re_match PARENTHETICAL_NEG (LPAREN :: body ++ [RPAREN])) = true).
    { destruct body as [|c body]; [congruence|]. simpl in K.
      apply andb_true_iff in K as [Kc Kb].
      apply re_match_complete
        with (m := MState (S (S (List.length body)) + 1) []
                          (Some (1%nat, (2 + List.length body)%nat))).
      rewrite PARENTHETICAL_NEG_eq. unfold at_start.
      apply M_Cat with (st1 := MState 0 (LPAREN :: (c :: body) ++ [RPAREN]) None);
        [now constructor|].
      apply M_Cat with (st1 := MState 0 (LPAREN :: (c :: body) ++ [RPAREN]) None);
        [constructor|].
      apply M_Cat with (st1 := MState 1 ((c :: body) ++ [RPAREN]) None);
        [now apply matches_cls_intro|].
      apply M_Cat with (st1 := MState 1 ((c :: body) ++ [RPAREN]) None);
        [constructor|].
      apply M_Cat with (st1 := MState (2 + List.length body) [RPAREN]
                                      (Some (1%nat, (2 + List.length body)%nat))).
      { apply (@M_Grp _ (MState 1 ((c :: body) ++ [RPAREN]) None)
                      (MState (2 + List.length body) [RPAREN] None)).
        apply M_Cat with (st1 := MState 2 (body ++ [RPAREN]) None).
        - now apply matches_cls_intro.
        - now apply (matches_star_cls_intro paren_body_char body [RPAREN]). }
      apply M_Cat with (st1 := MState (2 + List.length body) [RPAREN]
                                      (Some (1%nat, (2 + List.length body)%nat)));
        [constructor|].
      apply M_Cat with (st1 := MState (S (S (List.length body)) + 1) []
                                      (Some (1%nat, (2 + List.length body)%nat))).
      { rewrite Nat.add_1_r. now apply matches_cls_intro. }
      apply M_Cat with (st1 := MState (S (S (List.length body)) + 1) []
                                      (Some (1%nat, (2 + List.length body)%nat)));
        [constructor|].
      constructor. now left. }
    rewrite E in M. discriminate.
Qed.

Lemma paren_step_not_wrapped (body : str) :
  forallb paren_body_char body = false ->
  paren_step (LPAREN :: body ++ [RPAREN]) = (LPAREN :: body ++ [RPAREN], false).
Proof.
  intros K. unfold paren_step.
  destruct (re_match PARENTHETICAL_NEG (LPAREN :: body ++ [RPAREN])) as [m|] eqn:E;
    [exfalso | reflexivity].
  apply paren_match_inv in E
    as (a0 & a1 & g & a2 & a3 & tail & E & S0 & S1 & Kg & Ng & S2 & S3 & T & G).
  destruct a0 as [|x a0]; simpl in E.
  2:{ injection E as <- _. simpl in S0. discriminate. }
  injection E as E.
  assert (Hw : forallb isspace (a3 ++ tail) = true).
  { rewrite forallb_app, S3. destruct T as [->| ->]; reflexivity. }
  replace (a1 ++ g ++ a2 ++ RPAREN :: a3 ++ tail)
    with ((a1 ++ g ++ a2) ++ RPAREN :: (a3 ++ tail)) in E
    by now rewrite <- !app_assoc.
  apply snoc_eq_blank_tail in E as (_ & -> & _); [|reflexivity|exact Hw].
  rewrite !forallb_app, Kg in K.
  assert (Sp : forall w, forallb isspace w = true -> forallb paren_body_char w = true).
  { intros w. apply forallb_impl. intros c Hc. unfold paren_body_char.
    rewrite Hc. apply orb_true_r. }
  rewrite (Sp a1 S1), (Sp a2 S2) in K. discriminate.
Qed.

Lemma paren_step_other (c : char) (t : str) :
  isspace c = false -> (c =? LPAREN)%N = false ->
  paren_step (c :: t) = (c :: t, false).
Proof.
  intros Hs Hc. unfold paren_step.
  destruct (re_match PARENTHETICAL_NEG (c :: t)) as [m|] eqn:E; [exfalso | reflexivity].
  apply paren_match_inv in E
    as (a0 & a1 & g & a2 & a3 & tail & E & S0 & _).
  destruct a0 as [|x a0]; simpl in E; injection E as -> _.
  - discriminate.
  - simpl in S0. rewrite Hs in S0. discriminate.
Qed.

(** ** The steps of normalize_number_string *)

Lemma normalize_steps (raw : str) (fmt : number_format) :
  normalize_number_string (Some raw) fmt
  = if negb (nonempty (strip raw)) || negb (existsb isdecimal (strip raw))
    then None
    else shape_step
           (minus_step
              (paren_step (strip (re_sub_empty CURRENCY_PREFIX (strip raw)))))
           fmt.
Proof.
  unfold normalize_number_string, shape_step, minus_step, paren_step.
  rewrite search_digit.
  destruct (negb (nonempty (strip raw)) || negb (existsb isdecimal (strip raw)));
    [reflexivity|].
  destruct (re_match PARENTHETICAL_NEG _); destruct (startswith _ _); reflexivity.
Qed.

Lemma str_eqb_eq (a b : str) : str_eqb a b = true -> a = b.
Proof.
  revert b. induction a as [|x a IH]; intros [|y b] H; simpl in H;
    try discriminate; [reflexivity|].
  apply andb_true_iff in H as [Hx Hab]. apply N.eqb_eq in Hx.
  now rewrite Hx, (IH b Hab).
Qed.

Lemma replace_cons_ne (old c : char) (new s : str) :
  (c =? old)%N = false -> replace old new (c :: s) = c :: replace old new s.
Proof. intros H. unfold replace. simpl. now rewrite H. Qed.

Lemma existsb_negb_forallb (q : char -> bool) (s : str) :
  forallb q s = true -> existsb (fun c => negb (q c)) s = false.
Proof.
  induction s as [|c s IH]; simpl; [reflexivity|].
  intros H. apply andb_true_iff in H as [Hc Hs]. now rewrite Hc, IH.
Qed.

Lemma forallb_existsb_negb (q : char -> bool) (s : str) :
  forallb q s = false -> existsb (fun c => negb (q c)) s = true.
Proof.
  induction s as [|c s IH]; simpl; [discriminate|].
  destruct (q c); simpl; [exact IH | reflexivity].
Qed.

(** What the shape test accepts holds only digits, points and blanks. *)
Lemma plain_match_chars (s : str) :
  is_match (re_match PLAIN_NUMBER s) = true ->
  forallb paren_body_char s = true.
Proof.
  intros H. apply plain_match_sound in H as (s0 & tail & -> & P & T).
  rewrite forallb_app. apply andb_true_iff. split.
  - apply is_plain_number_chars in P. revert P. apply forallb_impl.
    intros c Hc. unfold paren_body_char.
    apply orb_true_iff in Hc as [Hc|Hc]; rewrite Hc;
      [reflexivity | now rewrite !orb_true_r].
  - destruct T as [->| ->]; reflexivity.
Qed.

Lemma plain_match_first (c : char) (t : str) :
  isdecimal c = false -> re_match PLAIN_NUMBER (c :: t) = None.
Proof.
  intros H. destruct (re_match PLAIN_NUMBER (c :: t)) as [m|] eqn:E; [|reflexivity].
  assert (M : is_match (re_match PLAIN_NUMBER (c :: t)) = true) by now rewrite E.
  apply plain_match_sound in M as (s0 & tail & E0 & P & T).
  apply is_plain_number_elim in P as (c' & ip & mid & fp & -> & Hc & _).
  simpl in E0. injection E0 as -> _. congruence.
Qed.

(** A text with a digit and with a character that is neither a digit, a
    separator nor a blank is rejected by the last step. *)
Lemma shape_step_reject (s : str) (neg : bool) (fmt : number_format) :
  existsb isdecimal s = true ->
  existsb (fun c => negb (paren_body_char c)) s = true ->
  shape_step (s, neg) fmt = None.
Proof.
  intros Hd Hb. unfold shape_step.
  set (s2 := replace NBSP [] (replace SPACE [] s)).
  assert (Hd2 : existsb isdecimal s2 = true).
  { unfold s2. apply existsb_replace; [|now left].
    apply existsb_replace; [exact Hd | now left]. }
  assert (Hb2 : existsb (fun c => negb (paren_body_char c)) s2 = true).
  { unfold s2. apply existsb_replace; [|now left].
    apply existsb_replace; [exact Hb | now left]. }
  destruct (str_eqb s2 (lit "-") || str_eqb s2 [EM_DASH] || str_eqb s2 [EN_DASH])
    eqn:Dash.
  { exfalso. repeat (apply orb_true_iff in Dash as [Dash|Dash]);
      apply str_eqb_eq in Dash; rewrite Dash in Hd2; discriminate. }
  set (s3 := match fmt with
             | en => replace COMMA [] s2
             | es => replace COMMA (lit ".") (replace DOT [] s2)
             end).
  assert (Hb3 : existsb (fun c => negb (paren_body_char c)) s3 = true).
  { unfold s3. destruct fmt.
    - apply existsb_replace; [exact Hb2 | now left].
    - apply existsb_replace; [|now left].
      apply existsb_replace; [exact Hb2 | now left]. }
  destruct (is_match (re_match PLAIN_NUMBER s3)) eqn:M; [|reflexivity].
  apply plain_match_chars, existsb_negb_forallb in M. congruence.
Qed.

Lemma shape_step_open_paren (t : str) (neg : bool) (fmt : number_format) :
  shape_step (LPAREN :: t, neg) fmt = None.
Proof.
  unfold shape_step.
  rewrite (replace_cons_ne SPACE LPAREN [] t) by reflexivity.
  rewrite (replace_cons_ne NBSP LPAREN [] _) by reflexivity.
  cbn [str_eqb lit orb andb]. change (LPAREN =? ord "-")%N with false.
  change (LPAREN =? EM_DASH)%N with false. change (LPAREN =? EN_DASH)%N with false.
  cbn [orb andb].
  destruct fmt.
  - rewrite (replace_cons_ne COMMA LPAREN [] _) by reflexivity.
    now rewrite plain_match_first.
  - rewrite (replace_cons_ne DOT LPAREN [] _) by reflexivity.
    rewrite (replace_cons_ne COMMA LPAREN _ _) by reflexivity.
    now rewrite plain_match_first.
Qed.

Lemma body_char_not_blank_free (c : char) :
  negb (paren_body_char c) = true -> isspace c = false.
Proof.
  unfold paren_body_char. destruct (isspace c); [|reflexivity].
  now rewrite !orb_true_r.
Qed.

Lemma body_chars_no (x : char) (s : str) :
  paren_body_char x = false ->
  forallb paren_body_char s = true ->
  forallb (fun c => negb (c =? x)%N) s = true.
Proof.
  intros Hx. apply forallb_impl. intros c Hc.
  destruct (c =? x)%N eqn:E; [|reflexivity].
  apply N.eqb_eq in E. congruence.
Qed.

Lemma startswith_hyphen_no (s : str) :
  forallb (fun c => negb (c =? HYPHEN)%N) s = true ->
  startswith (lit "-") s = false.
Proof.
  destruct s as [|c s]; [reflexivity|]. cbn [forallb]. intros H.
  apply andb_true_iff in H as [Hc _].
  change (startswith (lit "-") (c :: s)) with ((HYPHEN =? c)%N && true).
  rewrite N.eqb_sym. now destruct (c =? HYPHEN)%N.
Qed.

(** The wrapped number and the minus-prefixed number reach the last step
    with the same text and the same sign, or are both rejected. *)
Lemma parenthetical_law (body : str) (fmt : number_format) :
  normalize_number_string (Some (LPAREN :: body ++ [RPAREN])) fmt
  = normalize_number_string (Some (HYPHEN :: body)) fmt.
Proof.
  rewrite !normalize_steps.
  rewrite (strip_keeps LPAREN (body ++ [RPAREN])) by (try rewrite last_last; reflexivity).
  rewrite (strip_cons_keep HYPHEN body) by reflexivity.
  cbn [nonempty negb orb existsb].
  change (isdecimal LPAREN) with false. change (isdecimal HYPHEN) with false.
  cbn [orb]. rewrite existsb_app. cbn [existsb].
  change (isdecimal RPAREN) with false. rewrite !orb_false_r.
  rewrite (existsb_rstrip_with isspace isdecimal body digit_not_space).
  destruct (existsb isdecimal body) eqn:D; [|reflexivity].
  cbn [negb].
  rewrite !currency_sub_id by reflexivity.
  rewrite (strip_keeps LPAREN (body ++ [RPAREN])) by (try rewrite last_last; reflexivity).
  rewrite (strip_cons_keep HYPHEN _) by reflexivity.
  rewrite rstrip_with_idem.
  rewrite (paren_step_other HYPHEN _) by reflexivity.
  destruct (forallb paren_body_char body) eqn:K.
  - rewrite paren_step_wrapped; [|exact K | intros ->; discriminate].
    f_equal. unfold minus_step.
    assert (Ks : forallb paren_body_char (strip body) = true)
      by now apply forallb_strip.
    assert (Kr : forallb paren_body_char (rstrip_with isspace body) = true)
      by now apply forallb_rstrip_with.
    rewrite (replace_id MINUS_SIGN) by (apply body_chars_no; [reflexivity | exact Ks]).
    rewrite (replace_id EN_DASH) by (apply body_chars_no; [reflexivity | exact Ks]).
    rewrite startswith_hyphen_no by (apply body_chars_no; [reflexivity | exact Ks]).
    rewrite (replace_cons_ne MINUS_SIGN HYPHEN) by reflexivity.
    rewrite (replace_cons_ne EN_DASH HYPHEN) by reflexivity.
    rewrite (replace_id MINUS_SIGN) by (apply body_chars_no; [reflexivity | exact Kr]).
    rewrite (replace_id EN_DASH) by (apply body_chars_no; [reflexivity | exact Kr]).
    cbn [startswith lit]. change (ord "-" =? HYPHEN)%N with true.
    cbn [andb skipn]. now rewrite strip_rstrip.
  - rewrite paren_step_not_wrapped by exact K.
    unfold minus_step at 1.
    rewrite (replace_cons_ne MINUS_SIGN LPAREN) by reflexivity.
    rewrite (replace_cons_ne EN_DASH LPAREN) by reflexivity.
    cbn [startswith lit]. change (ord "-" =? LPAREN)%N with false.
    cbn [andb]. rewrite shape_step_open_paren.
    unfold minus_step.
    rewrite (replace_cons_ne MINUS_SIGN HYPHEN) by reflexivity.
    rewrite (replace_cons_ne EN_DASH HYPHEN) by reflexivity.
    cbn [startswith lit]. change (ord "-" =? HYPHEN)%N with true.
    cbn [andb skipn].
    symmetry. apply shape_step_reject.
    + rewrite existsb_strip by exact digit_not_space.
      apply existsb_replace; [|now left].
      apply existsb_replace; [|now left].
      now rewrite (existsb_rstrip_with isspace isdecimal body digit_not_space).
    + rewrite existsb_strip by exact body_char_not_blank_free.
      apply existsb_replace; [|now right].
      apply existsb_replace; [|now right].
      rewrite (existsb_rstrip_with isspace _ body body_char_not_blank_free).
      now apply forallb_existsb_negb.
Qed.

(** ** The shape of the results of normalize_number_string *)

Lemma contains_forallb (x : char) (s : str) :
  contains x s = negb (forallb (fun c : char => negb (x =? c)%N) s).
Proof.
  unfold contains. induction s as [|c s IH]; simpl; [reflexivity|].
  rewrite IH. now destruct (x =? c)%N.
Qed.

Lemma no_char_contains (x : char) (s : str) :
  forallb (fun c : char => negb (x =? c)%N) s = true -> contains x s = false.
Proof. intros H. rewrite contains_forallb. now rewrite H. Qed.

Lemma contains_no_char (x : char) (s : str) :
  contains x s = false -> forallb (fun c : char => negb (x =? c)%N) s = true.
Proof.
  rewrite contains_forallb. now destruct (forallb _ s).
Qed.

Lemma forallb_app_l (q : char -> bool) (a b : str) :
  forallb q (a ++ b) = true -> forallb q a = true.
Proof. rewrite forallb_app. intros H. now apply andb_true_iff in H. Qed.

Lemma forallb_app_r (q : char -> bool) (a b : str) :
  forallb q (a ++ b) = true -> forallb q b = true.
Proof. rewrite forallb_app. intros H. now apply andb_true_iff in H. Qed.

Lemma forallb_tail (q : char -> bool) (c : char) (s : str) :
  forallb q (c :: s) = true -> forallb q s = true.
Proof. simpl. intros H. now apply andb_true_iff in H. Qed.

(** Removing the currency prefix leaves a suffix of the text. *)
Lemma currency_sub_suffix (s : str) :
  exists w : str, s = w ++ re_sub_empty CURRENCY_PREFIX s.
Proof.
  unfold CURRENCY_PREFIX at 1. rewrite re_sub_anchored.
  change (Cat Bol _) with CURRENCY_PREFIX.
  destruct (re_match CURRENCY_PREFIX s) as [m|] eqn:M; [|now exists []].
  destruct (0 <? m_pos m)%nat; [|now exists []].
  apply re_match_sound in M. apply matches_consumes in M.
  destruct M as (w & E & _). now exists w.
Qed.

Lemma currency_sub_forallb (q : char -> bool) (s : str) :
  forallb q s = true -> forallb q (re_sub_empty CURRENCY_PREFIX s) = true.
Proof.
  intros H. destruct (currency_sub_suffix s) as (w & E).
  rewrite E in H. now apply forallb_app_r in H.
Qed.

Lemma paren_step_forallb (q : char -> bool) (s : str) :
  forallb q s = true -> forallb q (fst (paren_step s)) = true.
Proof.
  intros H. unfold paren_step.
  destruct (re_match PARENTHETICAL_NEG s) as [m|] eqn:M; [|exact H].
  cbn [fst]. apply forallb_strip.
  destruct (@paren_match_inv s m M) as (a0 & a1 & g & a2 & a3 & tail & E & _ & _ & _ & _ & _ & _ & _ & G).
  rewrite G. rewrite E in H.
  apply forallb_app_r, forallb_tail, forallb_app_r, forallb_app_l in H.
  exact H.
Qed.

Lemma minus_step_forallb (q : char -> bool) (sn : str * bool) :
  q HYPHEN = true ->
  forallb q (fst sn) = true -> forallb q (fst (minus_step sn)) = true.
Proof.
  intros Hq H. destruct sn as [s neg]. cbn [fst] in H. unfold minus_step.
  assert (R : forallb q (replace EN_DASH (lit "-")
                           (replace MINUS_SIGN (lit "-") s)) = true).
  { assert (Hl : forallb q (lit "-") = true).
    { change (lit "-") with [HYPHEN]. cbn [forallb]. now rewrite Hq. }
    apply forallb_replace; [apply forallb_replace|]; trivial. }
  destruct (startswith _ _); cbn [fst]; [|exact R].
  now apply forallb_strip, forallb_skipn.
Qed.

Lemma digit_ne (x c : char) :
  isdecimal x = false -> isdecimal c = true -> (c =? x)%N = false.
Proof.
  intros Hx Hc. apply N.eqb_neq. now apply (@class_ne isdecimal x c).
Qed.

Lemma plain_number_head (s : str) :
  is_plain_number s = true ->
  exists (c : char) (t : str), s = c :: t /\ isdecimal c = true.
Proof.
  intros H. apply is_plain_number_elim in H.
  destruct H as (c & ip & mid & fp & -> & Hc & _). now exists c, (ip ++ mid ++ fp).
Qed.

Lemma plain_is_normalized (s : str) :
  is_plain_number s = true -> is_normalized s = true.
Proof.
  intros H. destruct (@plain_number_head s H) as (c & t & -> & Hc).
  unfold is_normalized. now rewrite (@digit_ne HYPHEN c) by (trivial).
Qed.

Lemma shape_step_shape (s : str) (neg : bool) (fmt : number_format) :
  shape_step (s, neg) fmt = None
  \/ exists s0 tail : str,
       shape_step (s, neg) fmt = Some (s0 ++ tail)
       /\ is_normalized s0 = true
       /\ (tail = [] \/ tail = [LF] /\ contains LF s = true).
Proof.
  unfold shape_step.
  destruct (str_eqb _ _ || str_eqb _ _ || str_eqb _ _).
  { right. exists (lit "0"), []. repeat split; auto. }
  set (s1 := replace NBSP [] (replace SPACE [] s)).
  set (s2 := match fmt with
             | en => replace COMMA [] s1
             | es => replace COMMA (lit ".") (replace DOT [] s1)
             end).
  destruct (is_match (re_match PLAIN_NUMBER s2)) eqn:M; [|now left].
  right. cbn [negb].
  destruct (@plain_match_sound s2 M) as (s0 & tail & E & P & T).
  assert (L : tail = [LF] -> contains LF s = true).
  { intros ->. destruct (contains LF s) eqn:CT; [reflexivity|exfalso].
    apply contains_no_char in CT.
    assert (F2 : forallb (fun c : char => negb (LF =? c)%N) s2 = true).
    { unfold s2, s1. destruct fmt; repeat apply forallb_replace; trivial. }
    rewrite E in F2. apply forallb_app_r in F2. discriminate. }
  destruct neg.
  - exists (lit "-" ++ s0), tail. rewrite E, <- app_assoc.
    split; [reflexivity|]. split; [exact P|].
    destruct T as [T|T]; [now left | right; auto].
  - exists s0, tail. rewrite E. split; [reflexivity|].
    split; [now apply plain_is_normalized|].
    destruct T as [T|T]; [now left | right; auto].
Qed.

(** Every character that reaches the last step comes from the cell. *)
Lemma steps_forallb (q : char -> bool) (raw : str) :
  q HYPHEN = true -> forallb q raw = true ->
  forallb q
    (fst (minus_step
            (paren_step (strip (re_sub_empty CURRENCY_PREFIX (strip raw))))))
  = true.
Proof.
  intros Hq H.
  apply minus_step_forallb; [exact Hq|].
  apply paren_step_forallb, forallb_strip, currency_sub_forallb, forallb_strip.
  exact H.
Qed.

Lemma normalize_shape (text : str) (fmt : number_format) :
  normalize_number_string (Some text) fmt = None
  \/ exists s tail : str,
       normalize_number_string (Some text) fmt = Some (s ++ tail)
       /\ is_normalized s = true
       /\ (tail = [] \/ tail = [LF] /\ contains LF text = true).
Proof.
  rewrite normalize_steps.
  destruct (negb _ || negb _); [now left|].
  destruct (minus_step _) as [s neg] eqn:E.
  destruct (shape_step_shape s neg fmt) as [H|(s0 & tail & H & P & T)];
    [now left | right].
  exists s0, tail. split; [exact H|]. split; [exact P|].
  destruct T as [T|[T L]]; [now left | right]. split; [exact T|].
  destruct (contains LF text) eqn:CT; [reflexivity|exfalso].
  apply contains_no_char in CT.
  pose proof (@steps_forallb _ text eq_refl CT) as F.
  rewrite E in F. cbn [fst] in F. apply no_char_contains in F. congruence.
Qed.

(** ** Normalised strings under the normaliser *)

Lemma plain_chars_no (x : char) (s : str) :
  isdecimal x = false -> (x =? DOT)%N = false ->
  forallb (fun c => isdecimal c || (c =? DOT)%N) s = true ->
  forallb (fun c => negb (c =? x)%N) s = true.
Proof.
  intros Hx Hd. apply forallb_impl. intros c Hc.
  destruct (c =? x)%N eqn:E; [|reflexivity].
  apply N.eqb_eq in E. subst c. now rewrite Hx, Hd in Hc.
Qed.

Lemma last_cons (t : str) :
  forall y c : char, last (y :: t) c = last t y.
Proof.
  induction t as [|z t IH]; intros y c; [reflexivity|].
  change (last (y :: z :: t) c) with (last (z :: t) c).
  now rewrite !IH.
Qed.

Lemma forallb_last (q : char -> bool) (t : str) :
  forall c : char, forallb q (c :: t) = true -> q (last t c) = true.
Proof.
  induction t as [|y t IH]; intros c H.
  - simpl in *. now apply andb_true_iff in H.
  - rewrite last_cons. apply IH. now apply forallb_tail in H.
Qed.

Lemma plain_number_last (c : char) (t : str) :
  forallb (fun c => isdecimal c || (c =? DOT)%N) (c :: t) = true ->
  isspace (last t c) = false.
Proof.
  intros H. apply forallb_last in H.
  apply orb_true_iff in H as [H|H].
  - now apply digit_not_space.
  - apply N.eqb_eq in H. now rewrite H.
Qed.

Lemma strip_plain (s : str) :
  is_plain_number s = true -> strip s = s.
Proof.
  intros H. pose proof (@is_plain_number_chars s H) as C.
  destruct (@plain_number_head s H) as (c & t & -> & Hc).
  apply strip_keeps; [now apply digit_not_space | now apply plain_number_last].
Qed.

Lemma replace_app (old : char) (new a b : str) :
  replace old new (a ++ b) = replace old new a ++ replace old new b.
Proof. unfold replace. apply flat_map_app. Qed.

Lemma digits_no (x : char) (s : str) :
  isdecimal x = false -> forallb isdecimal s = true ->
  forallb (fun c => negb (c =? x)%N) s = true.
Proof.
  intros Hx. apply forallb_impl. intros c Hc. now rewrite (@digit_ne x c).
Qed.

Lemma str_eqb_digit_head (c x : char) (t u : str) :
  isdecimal x = false -> isdecimal c = true ->
  str_eqb (c :: t) (x :: u) = false.
Proof. intros Hx Hc. simpl. now rewrite (@digit_ne x c). Qed.

(** A plain number passes the last step: unchanged under ['en'], with its
    point deleted under ['es']. *)
Lemma shape_step_plain (s : str) (neg : bool) (fmt : number_format) :
  is_plain_number s = true ->
  shape_step (s, neg) fmt
  = let s' := match fmt with en => s | es => replace DOT [] s end in
    Some (if neg then lit "-" ++ s' else s').
Proof.
  intros H. pose proof (@is_plain_number_chars s H) as C.
  unfold shape_step.
  rewrite (replace_id SPACE) by (apply plain_chars_no; trivial).
  rewrite (replace_id NBSP) by (apply plain_chars_no; trivial).
  destruct (@is_plain_number_elim s H) as (c & ip & mid & fp & E & Hc & Hip & Hmid & Hfp).
  assert (Q1 : str_eqb s (lit "-") = false)
    by (rewrite E; apply str_eqb_digit_head; trivial).
  assert (Q2 : str_eqb s [EM_DASH] = false)
    by (rewrite E; apply str_eqb_digit_head; trivial).
  assert (Q3 : str_eqb s [EN_DASH] = false)
    by (rewrite E; apply str_eqb_digit_head; trivial).
  rewrite Q1, Q2, Q3. cbn [orb].
  assert (NL : contains LF s = false).
  { apply no_char_contains. revert C. apply forallb_impl. intros x Hx.
    destruct (LF =? x)%N eqn:EL; [|reflexivity].
    apply N.eqb_eq in EL. subst x. discriminate. }
  destruct fmt; cbn zeta.
  - rewrite (replace_id COMMA) by (apply plain_chars_no; trivial).
    rewrite plain_match_no_lf by exact NL. now rewrite H.
  - assert (D : replace DOT [] s = c :: ip ++ fp).
    { rewrite E. rewrite replace_cons_ne by (now apply digit_ne).
      rewrite !replace_app.
      rewrite (replace_id DOT [] ip) by (now apply digits_no).
      rewrite (replace_id DOT [] fp) by (now apply digits_no).
      destruct Hmid as [-> | ->]; reflexivity. }
    rewrite D.
    assert (A : forallb isdecimal (c :: ip ++ fp) = true).
    { cbn [forallb]. now rewrite Hc, forallb_app, Hip, Hfp. }
    rewrite (replace_id COMMA) by (now apply digits_no).
    assert (P : is_plain_number (c :: ip ++ fp) = true).
    { replace (c :: ip ++ fp) with (c :: (ip ++ fp) ++ [] ++ [])
        by (now rewrite !app_nil_r).
      apply is_plain_number_intro; auto.
      cbn [forallb] in A. now apply andb_true_iff in A. }
    rewrite plain_match_no_lf.
    + now rewrite P.
    + apply no_char_contains. revert A. apply forallb_impl. intros x Hx.
      destruct (LF =? x)%N eqn:EL; [|reflexivity].
      apply N.eqb_eq in EL. subst x. discriminate.
Qed.

Lemma digit_not_listed (cs : str) (c : char) :
  existsb isdecimal cs = false -> isdecimal c = true -> one_of cs c = false.
Proof.
  intros Hcs Hc. unfold one_of.
  induction cs as [|x cs IH]; [reflexivity|].
  simpl in *. apply orb_false_iff in Hcs as [Hx Hcs].
  now rewrite (@digit_ne x c), IH.
Qed.

Lemma normalize_plain (s : str) (fmt : number_format) :
  is_plain_number s = true ->
  normalize_number_string (Some s) fmt
  = Some (match fmt with en => s | es => replace DOT [] s end).
Proof.
  intros H. pose proof (@is_plain_number_chars s H) as C.
  rewrite normalize_steps, (@strip_plain s H).
  destruct (@plain_number_head s H) as (c & t & E & Hc).
  assert (X : existsb isdecimal s = true) by (rewrite E; simpl; now rewrite Hc).
  rewrite X. rewrite E at 1. cbn [nonempty negb orb].
  rewrite E at 1.
  rewrite currency_sub_id;
    [| now apply digit_not_space | now apply digit_not_listed ].
  rewrite <- E, (@strip_plain s H). rewrite E at 1.
  rewrite paren_step_other;
    [| now apply digit_not_space | now apply digit_ne ].
  rewrite <- E. unfold minus_step.
  rewrite (replace_id MINUS_SIGN) by (apply plain_chars_no; trivial).
  rewrite (replace_id EN_DASH) by (apply plain_chars_no; trivial).
  rewrite startswith_hyphen_no by (apply plain_chars_no; trivial).
  now rewrite shape_step_plain.
Qed.

Lemma normalize_minus_plain (s : str) (fmt : number_format) :
  is_plain_number s = true ->
  normalize_number_string (Some (HYPHEN :: s)) fmt
  = Some (HYPHEN :: match fmt with en => s | es => replace DOT [] s end).
Proof.
  intros H. pose proof (@is_plain_number_chars s H) as C.
  rewrite normalize_steps.
  assert (K : strip (HYPHEN :: s) = HYPHEN :: s).
  { rewrite strip_cons_keep by reflexivity.
    f_equal. destruct (@plain_number_head s H) as (c & t & -> & Hc).
    apply rstrip_with_keeps. now apply plain_number_last. }
  rewrite K.
  destruct (@plain_number_head s H) as (c & t & E & Hc).
  assert (X : existsb isdecimal s = true) by (rewrite E; simpl; now rewrite Hc).
  cbn [nonempty negb orb existsb]. rewrite X, orb_true_r. cbn [negb].
  rewrite currency_sub_id by reflexivity. rewrite K.
  rewrite paren_step_other by reflexivity.
  unfold minus_step.
  rewrite (replace_cons_ne MINUS_SIGN HYPHEN) by reflexivity.
  rewrite (replace_cons_ne EN_DASH HYPHEN) by reflexivity.
  rewrite (replace_id MINUS_SIGN) by (apply plain_chars_no; trivial).
  rewrite (replace_id EN_DASH) by (apply plain_chars_no; trivial).
  cbn [startswith lit]. change (ord "-" =? HYPHEN)%N with true.
  cbn [andb skipn]. rewrite (@strip_plain s H).
  now rewrite shape_step_plain.
Qed.

Lemma normalize_normalized (s : str) (fmt : number_format) :
  is_normalized s = true ->
  normalize_number_string (Some s) fmt
  = Some (match fmt with en => s | es => replace DOT [] s end).
Proof.
  unfold is_normalized. destruct s as [|c t]; [discriminate|].
  destruct (c =? HYPHEN)%N eqn:E.
  - apply N.eqb_eq in E. subst c. intros H.
    rewrite normalize_minus_plain by exact H.
    destruct fmt; [reflexivity|].
    now rewrite (replace_cons_ne DOT HYPHEN).
  - apply normalize_plain.
Qed.

(** ** Tokens *)

Lemma nonempty_rev (s : str) : nonempty (rev s) = nonempty s.
Proof.
  destruct s as [|c s]; [reflexivity|]. simpl.
  destruct (rev s); reflexivity.
Qed.

(** The non-empty pieces of the split are the tokens. *)
Lemma split_runs_tokens (s : str) :
  forall (in_sep : bool) (cur : str),
    (in_sep = true -> cur = []) ->
    filter nonempty (split_runs is_separator in_sep cur s) = tokens_from cur s.
Proof.
  induction s as [|c t IH]; intros in_sep cur Hinv.
  - cbn [split_runs tokens_from filter]. rewrite nonempty_rev.
    destruct cur; reflexivity.
  - cbn [split_runs tokens_from]. destruct (is_separator c).
    + destruct in_sep.
      * rewrite (Hinv eq_refl). now apply IH.
      * cbn [filter]. rewrite nonempty_rev.
        destruct cur; cbn [nonempty]; rewrite IH; auto.
    + apply IH. discriminate.
Qed.

Lemma tokens_from_lead (a : str) (s : str) :
  forallb is_separator a = true ->
  tokens_from [] (a ++ s) = tokens_from [] s.
Proof.
  induction a as [|c a IH]; [reflexivity|]. cbn [forallb app tokens_from].
  intros H. apply andb_true_iff in H as [Hc Ha]. now rewrite Hc, IH.
Qed.

Lemma tokens_from_trail (a : str) :
  forallb is_separator a = true ->
  forall s cur : str, tokens_from cur (s ++ a) = tokens_from cur s.
Proof.
  intros Ha. induction s as [|c s IH]; intros cur.
  - cbn [app]. destruct cur as [|x cur].
    + rewrite <- (app_nil_r a). now rewrite tokens_from_lead.
    + destruct a as [|y a]; [reflexivity|].
      cbn [forallb] in Ha. apply andb_true_iff in Ha as [Hy Ha].
      cbn [tokens_from]. rewrite Hy.
      rewrite <- (app_nil_r a). now rewrite tokens_from_lead.
  - cbn [app tokens_from]. destruct (is_separator c).
    + destruct cur; now rewrite IH.
    + apply IH.
Qed.

Lemma dropwhile_prefix (p : char -> bool) (s : str) :
  exists a : str, s = a ++ dropwhile p s /\ forallb p a = true.
Proof.
  induction s as [|c s (a & E & Ha)]; [now exists []|].
  cbn [dropwhile]. destruct (p c) eqn:Hc.
  - exists (c :: a). cbn [app forallb]. rewrite Hc, Ha. now rewrite <- E.
  - now exists [].
Qed.

Lemma rstrip_with_suffix (p : char -> bool) (s : str) :
  exists b : str, s = rstrip_with p s ++ b /\ forallb p b = true.
Proof.
  unfold rstrip_with.
  destruct (dropwhile_prefix p (rev s)) as (a & E & Ha).
  exists (rev a). split.
  - rewrite <- rev_app_distr, <- E. now rewrite rev_involutive.
  - now rewrite forallb_rev.
Qed.

Lemma tokens_lstrip (p : char -> bool) (s : str) :
  (forall c, p c = true -> is_separator c = true) ->
  tokens (lstrip_with p s) = tokens s.
Proof.
  intros Hp. unfold tokens, lstrip_with.
  destruct (dropwhile_prefix p s) as (a & E & Ha).
  rewrite E at 2. rewrite tokens_from_lead; [reflexivity|].
  revert Ha. now apply forallb_impl.
Qed.

Lemma tokens_rstrip (p : char -> bool) (s : str) :
  (forall c, p c = true -> is_separator c = true) ->
  tokens (rstrip_with p s) = tokens s.
Proof.
  intros Hp. unfold tokens.
  destruct (rstrip_with_suffix p s) as (b & E & Hb).
  rewrite E at 2. rewrite tokens_from_trail; [reflexivity|].
  revert Hb. now apply forallb_impl.
Qed.

Lemma space_is_separator (c : char) : isspace c = true -> is_separator c = true.
Proof. intros H. unfold is_separator. now rewrite H, orb_true_r. Qed.

Lemma tokens_strip (s : str) : tokens (strip s) = tokens s.
Proof.
  unfold strip.
  rewrite tokens_rstrip by exact space_is_separator.
  now rewrite tokens_lstrip by exact space_is_separator.
Qed.

Lemma tokens_rstrip_comma (s : str) :
  tokens (rstrip_chars (lit ",") s) = tokens s.
Proof.
  unfold rstrip_chars. apply tokens_rstrip.
  intros c H. cbn [existsb lit] in H. rewrite orb_false_r in H.
  unfold is_separator. change (ord ",") with COMMA in H. now rewrite H.
Qed.

(** The text that [is_rgb_artifact] splits has the tokens of the cell. *)
Lemma tokens_cleaned (text : str) :
  tokens (strip (rstrip_chars (lit ",") (strip text))) = tokens text.
Proof. now rewrite tokens_strip, tokens_rstrip_comma, tokens_strip. Qed.

(** ** is_rgb_artifact on tokens *)

Lemma py_all_small_int (parts : list str) :
  match py_all is_small_int parts with
  | Some result => result
  | None => false
  end = forallb token_ok parts.
Proof.
  induction parts as [|p parts IH]; [reflexivity|].
  cbn [py_all forallb]. unfold is_small_int at 1, token_ok at 1.
  unfold is_small_numeral, int_of_digits.
  destruct (forallb is_ascii_digit p); cbn [negb andb]; [|reflexivity].
  rewrite Nat.leb_antisym.
  destruct (int_max_str_digits <? List.length p)%nat; cbn [negb].
  - now rewrite andb_false_r.
  - rewrite andb_true_r. fold (numeral_value p).
    destruct (numeral_value p <=? 255)%N; [exact IH | reflexivity].
Qed.

Lemma rgb_artifact_tokens (text : str) :
  is_rgb_artifact (Some text) = forallb token_ok (tokens text).
Proof.
  unfold is_rgb_artifact. rewrite <- (tokens_cleaned text).
  set (s := strip (rstrip_chars (lit ",") (strip text))).
  destruct s as [|c s'] eqn:E; [reflexivity|]. cbn [nonempty negb].
  rewrite py_all_small_int. unfold re_split_class.
  change (fun c0 : N => ((c0 =? COMMA)%N || isspace c0)%bool) with is_separator.
  rewrite split_runs_tokens by discriminate. reflexivity.
Qed.

Lemma blank_is_rgb_artifact (text : str) :
  nonempty (strip text) = false -> is_rgb_artifact (Some text) = true.
Proof.
  intros H. rewrite rgb_artifact_tokens, <- tokens_strip.
  now destruct (strip text).
Qed.

(** ** The scan of the columns *)

Lemma scan_columns_run (t : table) (cols : list nat) :
  forall n : nat,
    scan_columns t cols n = (n + leading_run (column_is_artifact t) cols)%nat.
Proof.
  induction cols as [|j cols IH]; intros n; cbn [scan_columns leading_run].
  - lia.
  - destruct (column_is_artifact t j); [rewrite IH|]; lia.
Qed.

Lemma detect_artifact_columns_run (t : table) :
  detect_artifact_columns t
  = leading_run (column_is_artifact t) (seq 0 (max_cols t)).
Proof.
  destruct t as [|r t]; [reflexivity|].
  unfold detect_artifact_columns. now rewrite scan_columns_run.
Qed.

Lemma leading_run_seq (p : nat -> bool) (len : nat) :
  forall start : nat,
    let k := leading_run p (seq start len) in
    (k <= len)%nat
    /\ (forall j, (start <= j < start + k)%nat -> p j = true)
    /\ ((k < len)%nat -> p (start + k)%nat = false).
Proof.
  induction len as [|len IH]; intros start; cbn [seq leading_run].
  - cbn zeta. repeat split; intros; lia.
  - destruct (p start) eqn:P; cbn zeta.
    + specialize (IH (S start)). cbn zeta in IH. destruct IH as (L & A & B).
      repeat split.
      * lia.
      * intros j Hj. destruct (Nat.eq_dec j start) as [->|Hne]; [exact P|].
        apply A. lia.
      * intros Hk. replace (start + S _)%nat
          with (S start + leading_run p (seq (S start) len))%nat by lia.
        apply B. lia.
    + repeat split; intros; try lia. now rewrite Nat.add_0_r.
Qed.

Lemma leading_run_all (p : nat -> bool) (k len : nat) :
  forall start : nat,
    (k <= len)%nat ->
    (forall j, (start <= j < start + k)%nat -> p j = true) ->
    (k <= leading_run p (seq start len))%nat.
Proof.
  revert k. induction len as [|len IH]; intros k start Hk Hp.
  - lia.
  - destruct k as [|k]; [lia|]. cbn [seq leading_run].
    rewrite Hp by lia. apply le_n_S. apply IH; [lia|].
    intros j Hj. apply Hp. lia.
Qed.

Lemma column_is_artifact_counts (t : table) (j : nat) :
  column_is_artifact t j
  = (non_empty_count t j =? 0)%nat
    || (7 * non_empty_count t j <? 10 * artifact_count t j)%nat.
Proof.
  unfold column_is_artifact, non_empty_count, artifact_count, column,
    ratio_above_70.
  destruct (filter has_text (map (cell_at j) t)) as [|c l]; reflexivity.
Qed.

Lemma max_cols_ge (t : table) (r : row) :
  In r t -> (List.length r <= max_cols t)%nat.
Proof.
  unfold max_cols. induction t as [|r0 t IH]; [contradiction|].
  cbn [map fold_right]. intros [->|H]; [lia|].
  specialize (IH H). lia.
Qed.

Lemma filter_all (A : Type) (p : A -> bool) (l : list A) :
  forallb p l = true -> filter p l = l.
Proof.
  induction l as [|x l IH]; [reflexivity|]. cbn [forallb filter].
  intros H. apply andb_true_iff in H as [Hx Hl]. now rewrite Hx, IH.
Qed.

Lemma filter_none (A : Type) (p : A -> bool) (l : list A) :
  forallb (fun x => negb (p x)) l = true -> filter p l = [].
Proof.
  induction l as [|x l IH]; [reflexivity|]. cbn [forallb filter].
  intros H. apply andb_true_iff in H as [Hx Hl].
  destruct (p x); [discriminate|]. now apply IH.
Qed.

Lemma forallb_impl_gen (A : Type) (q q' : A -> bool) (l : list A) :
  (forall x, q x = true -> q' x = true) ->
  forallb q l = true -> forallb q' l = true.
Proof.
  intros Hq. induction l as [|x l IH]; [reflexivity|]. cbn [forallb].
  intros H. apply andb_true_iff in H as [Hx Hl].
  now rewrite (Hq x Hx), IH.
Qed.

Lemma forallb_filter (A : Type) (p q : A -> bool) (l : list A) :
  forallb p l = true -> forallb p (filter q l) = true.
Proof.
  induction l as [|x l IH]; [reflexivity|]. cbn [forallb filter].
  intros H. apply andb_true_iff in H as [Hx Hl].
  destruct (q x); cbn [forallb]; [rewrite Hx|]; now apply IH.
Qed.

(** A column all of whose cells [is_rgb_artifact] accepts is stripped. *)
Lemma artifact_column (t : table) (j : nat) :
  forallb is_rgb_artifact (column t j) = true ->
  column_is_artifact t j = true.
Proof.
  intros H. rewrite column_is_artifact_counts.
  unfold non_empty_count, artifact_count.
  rewrite (filter_all is_rgb_artifact) by (now apply forallb_filter).
  destruct (List.length _) as [|n]; [reflexivity|].
  apply orb_true_iff. right. apply Nat.ltb_lt. lia.
Qed.

(** A column of non-empty cells none of which [is_rgb_artifact] accepts
    stops the scan. *)
Lemma label_column (t : table) (j : nat) :
  t <> [] ->
  forallb (fun c => has_text c && negb (is_rgb_artifact c)) (column t j) = true ->
  column_is_artifact t j = false.
Proof.
  intros Ht H. rewrite column_is_artifact_counts.
  unfold non_empty_count, artifact_count.
  assert (H1 : forallb has_text (column t j) = true).
  { revert H. apply forallb_impl_gen. intros c Hc.
    now apply andb_true_iff in Hc. }
  assert (H2 : forallb (fun c => negb (is_rgb_artifact c)) (column t j) = true).
  { revert H. apply forallb_impl_gen. intros c Hc.
    now apply andb_true_iff in Hc. }
  rewrite (filter_all has_text) by exact H1.
  rewrite (filter_none is_rgb_artifact) by exact H2.
  unfold column. rewrite length_map.
  destruct t as [|r t]; [congruence|]. reflexivity.
Qed.

(** A table with a non-empty cell in column [j] has more than [j] columns. *)
Lemma text_column_width (t : table) (j : nat) :
  t <> [] -> forallb has_text (column t j) = true -> (j < max_cols t)%nat.
Proof.
  destruct t as [|r t]; [congruence|]. intros _ H.
  cbn [column map forallb] in H. apply andb_true_iff in H as [H _].
  apply Nat.lt_le_trans with (List.length r).
  - destruct (Nat.lt_ge_cases j (List.length r)) as [L|L]; [exact L|].
    unfold cell_at in H. now rewrite nth_overflow in H.
  - apply max_cols_ge. now left.
Qed.

(** Two leading artifact columns before a column of labels: exactly two
    columns are stripped. *)
Lemma two_artifact_columns (t : table) :
  t <> [] ->
  forallb is_rgb_artifact (column t 0) = true ->
  forallb is_rgb_artifact (column t 1) = true ->
  forallb (fun c => has_text c && negb (is_rgb_artifact c)) (column t 2) = true ->
  detect_artifact_columns t = 2%nat.
Proof.
  intros Ht H0 H1 H2.
  assert (W : (2 < max_cols t)%nat).
  { apply text_column_width; [exact Ht|].
    revert H2. apply forallb_impl_gen. intros c Hc.
    now apply andb_true_iff in Hc. }
  rewrite detect_artifact_columns_run.
  pose proof (leading_run_seq (column_is_artifact t) (max_cols t) 0) as R.
  cbn zeta in R. destruct R as (_ & A & _).
  assert (L : (2 <= leading_run (column_is_artifact t) (seq 0 (max_cols t)))%nat).
  { apply leading_run_all; [lia|]. intros j Hj.
    assert (J : j = 0%nat \/ j = 1%nat) by lia.
    destruct J as [-> | ->]; now apply artifact_column. }
  destruct (Nat.eq_dec (leading_run (column_is_artifact t) (seq 0 (max_cols t))) 2)
    as [E|E]; [exact E|].
  assert (C : column_is_artifact t 2 = true) by (apply A; lia).
  now rewrite label_column in C.
Qed.

Lemma leading_artifact_columns (t : table) (k : nat) :
  (k <= max_cols t)%nat ->
  (forall j, (j < k)%nat -> forallb is_rgb_artifact (column t j) = true) ->
  (k <= detect_artifact_columns t)%nat.
Proof.
  intros Hk H. rewrite detect_artifact_columns_run.
  apply leading_run_all; [exact Hk|].
  intros j Hj. apply artifact_column, H. lia.
Qed.

(** ** The number of digits of a coefficient *)

Lemma pos_below_pow2_size (p : positive) :
  (N.pos p < 2 ^ N.of_nat (Pos.size_nat p))%N.
Proof.
  induction p as [p IH|p IH|]; cbn [Pos.size_nat];
    rewrite ?Nat2N.inj_succ, ?N.pow_succ_r'; lia.
Qed.

Lemma below_pow2_size (n : N) : (n < 2 ^ N.of_nat (S (N.size_nat n)))%N.
Proof.
  rewrite Nat2N.inj_succ, N.pow_succ_r'.
  destruct n as [|p]; [cbn; lia|].
  pose proof (pos_below_pow2_size p). cbn [N.size_nat]. lia.
Qed.

(** [digits_fuel] with enough fuel writes [k] digits, where
    [10^(k-1) <= n < 10^k], or one digit for zero. *)
Lemma digits_fuel_S (fuel : nat) (n : N) (acc : list N) :
  digits_fuel (S fuel) n acc
  = if (n <? 10)%N then n :: acc
    else digits_fuel fuel (n / 10)%N ((n mod 10)%N :: acc).
Proof. reflexivity. Qed.

Lemma div10_upper (n q r x : N) :
  n = (10 * q + r)%N -> (r < 10)%N -> (q < 10 * x)%N -> (n < 10 * (10 * x))%N.
Proof. lia. Qed.

Lemma div10_lower (n q r x : N) :
  n = (10 * q + r)%N -> (x <= q)%N -> (10 * x <= n)%N.
Proof. lia. Qed.

Lemma digits_fuel_length (fuel : nat) :
  forall (n : N) (acc : list N),
    (n < 2 ^ N.of_nat (S fuel))%N ->
    exists k : nat,
      List.length (digits_fuel (S fuel) n acc) = (S k + List.length acc)%nat
      /\ (n < 10 ^ N.of_nat (S k))%N
      /\ (n = 0%N /\ k = 0%nat \/ (10 ^ N.of_nat k <= n)%N).
Proof.
  induction fuel as [|fuel IH]; intros n acc Hn;
    rewrite digits_fuel_S; destruct (n <? 10)%N eqn:E.
  1, 3: apply N.ltb_lt in E; exists 0%nat; cbn [List.length];
    (split; [reflexivity|]); (split; [cbn; lia|]);
    destruct (N.eq_dec n 0) as [->|Hne]; [now left | right; cbn; lia].
  - apply N.ltb_ge in E. cbn in Hn. lia.
  - apply N.ltb_ge in E.
    assert (Hd : (n / 10 < 2 ^ N.of_nat (S fuel))%N).
    { rewrite (Nat2N.inj_succ (S fuel)), N.pow_succ_r' in Hn.
      apply N.Div0.div_lt_upper_bound. lia. }
    destruct (IH (n / 10)%N ((n mod 10)%N :: acc) Hd) as (k & L & U & D).
    exists (S k). cbn [List.length] in L.
    split; [rewrite L; lia|].
    assert (Q : (1 <= n / 10)%N).
    { apply N.div_le_lower_bound; lia. }
    pose proof (N.Div0.div_mod n 10) as DM.
    pose proof (N.mod_lt n 10 ltac:(lia)) as ML.
    rewrite (Nat2N.inj_succ (S k)), N.pow_succ_r'.
    rewrite (Nat2N.inj_succ k), N.pow_succ_r' in *.
    split; [eapply div10_upper; eassumption|]. right.
    destruct D as [[Z0 _]|D]; [lia|]. eapply div10_lower; eassumption.
Qed.

Lemma int_len_spec (n : N) :
  exists k : nat,
    int_len n = Z.of_nat (S k)
    /\ (n < 10 ^ N.of_nat (S k))%N
    /\ (n = 0%N /\ k = 0%nat \/ (10 ^ N.of_nat k <= n)%N).
Proof.
  unfold int_len, int_digits.
  destruct (@digits_fuel_length (N.size_nat n) n [] (below_pow2_size n))
    as (k & L & U & D).
  exists k. rewrite L. cbn [List.length]. rewrite Nat.add_0_r. auto.
Qed.

Lemma int_len_pos (n : N) : (1 <= int_len n)%Z.
Proof. destruct (int_len_spec n) as (k & -> & _). lia. Qed.

Lemma pow10_nat_mono (a b : nat) :
  (a <= b)%nat -> (10 ^ N.of_nat a <= 10 ^ N.of_nat b)%N.
Proof. intros H. apply N.pow_le_mono_r; lia. Qed.

(** A coefficient below [10^k] has at most [k] digits. *)
Lemma int_len_le (n : N) (k : nat) :
  (0 < k)%nat -> (n < 10 ^ N.of_nat k)%N -> (int_len n <= Z.of_nat k)%Z.
Proof.
  intros Hk Hn. destruct (int_len_spec n) as (j & -> & U & [[-> ->]|D]); [lia|].
  destruct (Nat.le_gt_cases (S j) k) as [L|G]; [lia|].
  pose proof (@pow10_nat_mono k j ltac:(lia)). lia.
Qed.

(** A non-zero coefficient with [k] digits is at least [10^(k-1)]. *)
Lemma int_len_ge (n : N) (k : nat) :
  n <> 0%N -> (10 ^ N.of_nat k * n < 10 ^ N.of_nat 28)%N ->
  (int_len n + Z.of_nat k <= 28)%Z.
Proof.
  intros Hn H. destruct (int_len_spec n) as (j & -> & U & [[-> _]|D]); [lia|].
  destruct (Nat.le_gt_cases (S j + k) 28) as [L|G]; [lia|].
  assert (P : (10 ^ N.of_nat 28 <= 10 ^ N.of_nat (k + j))%N)
    by (apply pow10_nat_mono; lia).
  rewrite Nat2N.inj_add, N.pow_add_r in P.
  assert (M : (10 ^ N.of_nat k * 10 ^ N.of_nat j <= 10 ^ N.of_nat k * n)%N)
    by (apply N.mul_le_mono_l; exact D).
  lia.
Qed.

(** Padding a non-zero coefficient with [d] zeros adds [d] digits. *)
Lemma int_len_pad (n : N) (d : nat) :
  n <> 0%N -> int_len (n * 10 ^ N.of_nat d) = (int_len n + Z.of_nat d)%Z.
Proof.
  intros Hn.
  destruct (int_len_spec n) as (j & -> & U & [[-> _]|D]); [lia|].
  destruct (int_len_spec (n * 10 ^ N.of_nat d)) as (i & -> & U' & [[Z0 _]|D']).
  - apply N.eq_mul_0 in Z0 as [Z0|Z0]; [lia|].
    pose proof (N.pow_nonzero 10 (N.of_nat d) ltac:(lia)). lia.
  - assert (P : (0 < 10 ^ N.of_nat d)%N).
    { pose proof (N.pow_nonzero 10 (N.of_nat d) ltac:(lia)). lia. }
    assert (A : (10 ^ N.of_nat i < 10 ^ N.of_nat (S j + d))%N).
    { rewrite Nat2N.inj_add, N.pow_add_r.
      apply N.le_lt_trans with (n * 10 ^ N.of_nat d)%N; [exact D'|].
      apply N.mul_lt_mono_pos_r; assumption. }
    assert (B : (10 ^ N.of_nat (j + d) < 10 ^ N.of_nat (S i))%N).
    { rewrite Nat2N.inj_add, N.pow_add_r.
      apply N.le_lt_trans with (n * 10 ^ N.of_nat d)%N; [|exact U'].
      apply N.mul_le_mono_r; assumption. }
    apply N.pow_lt_mono_r_iff in A; [|lia].
    apply N.pow_lt_mono_r_iff in B; [|lia]. lia.
Qed.

(** ** Powers of ten *)

Lemma pow10_Z (k : Z) : (0 <= k)%Z -> Z.of_N (pow10 k) = (10 ^ k)%Z.
Proof.
  intros H. unfold pow10. rewrite N2Z.inj_pow, Z2N.id by exact H. reflexivity.
Qed.

Lemma pow10_nat (k : Z) : pow10 k = (10 ^ N.of_nat (Z.to_nat k))%N.
Proof. unfold pow10. now rewrite Z_nat_N. Qed.

Lemma pow10_pos (k : Z) : (0 < pow10 k)%N.
Proof.
  unfold pow10. pose proof (N.pow_nonzero 10 (Z.to_N k) ltac:(lia)). lia.
Qed.

Lemma pow10_nonpos (k : Z) : (k <= 0)%Z -> pow10 k = 1%N.
Proof.
  intros H. unfold pow10. replace (Z.to_N k) with 0%N by lia. reflexivity.
Qed.

Lemma Zpow10_pos (k : Z) : (0 <= k)%Z -> (0 < 10 ^ k)%Z.
Proof. intros H. apply Z.pow_pos_nonneg; lia. Qed.

Lemma Zpow10_split (a b : Z) :
  (0 <= a)%Z -> (0 <= b)%Z -> (10 ^ (a + b) = 10 ^ a * 10 ^ b)%Z.
Proof. intros. now apply Z.pow_add_r. Qed.

Lemma Zpow10_lt (a b : Z) :
  (0 <= a)%Z -> (10 ^ a < 10 ^ b)%Z -> (a < b)%Z.
Proof.
  intros Ha H. destruct (Z.lt_ge_cases a b) as [L|G]; [exact L|].
  assert (0 <= b \/ b < 0)%Z as [Hb|Hb] by lia.
  - pose proof (Z.pow_le_mono_r 10 b a ltac:(lia) G). lia.
  - rewrite (Z.pow_neg_r 10 b Hb) in H.
    pose proof (Zpow10_pos Ha). lia.
Qed.

(** The digit lemmas with integer exponents. *)
Lemma int_len_below (n : N) (k : Z) :
  (0 < k)%Z -> (Z.of_N n < 10 ^ k)%Z -> (int_len n <= k)%Z.
Proof.
  intros Hk H.
  replace k with (Z.of_nat (Z.to_nat k)) by lia.
  apply int_len_le; [lia|].
  rewrite <- pow10_nat. apply N2Z.inj_lt. rewrite pow10_Z by lia. exact H.
Qed.

Lemma int_len_padded_below (n : N) (d : Z) :
  n <> 0%N -> (0 <= d)%Z -> (Z.of_N n * 10 ^ d < 10 ^ 28)%Z ->
  (int_len n + d <= 28)%Z.
Proof.
  intros Hn Hd H.
  replace d with (Z.of_nat (Z.to_nat d)) at 1 by lia.
  apply int_len_ge; [exact Hn|].
  rewrite <- pow10_nat. apply N2Z.inj_lt.
  rewrite N2Z.inj_mul, pow10_Z by lia.
  change (Z.of_N (10 ^ N.of_nat 28)) with (10 ^ 28)%Z. lia.
Qed.

Lemma int_len_pow10 (n : N) (d : Z) :
  n <> 0%N -> (0 <= d)%Z -> int_len (n * pow10 d) = (int_len n + d)%Z.
Proof.
  intros Hn Hd. rewrite pow10_nat, int_len_pad by exact Hn. lia.
Qed.

(** ** Rounding leaves short numbers alone *)

Lemma fix_id (x : finite) :
  (Z.of_N (d_int x) < 10 ^ 28)%Z -> (Etiny <= d_exp x <= 0)%Z ->
  _fix x = Some x.
Proof.
  destruct x as [s i ex]. cbn [d_sign d_int d_exp]. intros Hi He.
  unfold _fix. cbn [d_sign d_int d_exp].
  destruct (i =? 0)%N eqn:Z0.
  - apply N.eqb_eq in Z0. subst i. do 2 f_equal.
    unfold Etiny, Emin, Emax, prec in *. lia.
  - apply N.eqb_neq in Z0.
    pose proof (int_len_below i (k:=28) ltac:(lia) Hi) as L.
    pose proof (int_len_pos i) as P.
    unfold Etop, Etiny, Emin, Emax, prec in *.
    destruct (_ <? int_len i + ex - 28)%Z eqn:A; [apply Z.ltb_lt in A; lia|].
    destruct (int_len i + ex - 28 <? _)%Z eqn:B;
      [|apply Z.ltb_ge in B];
      (destruct (ex <? _)%Z eqn:C; [apply Z.ltb_lt in C; lia | reflexivity]).
Qed.

(** ** Exact addition *)

Lemma signed_abs (s : bool) (n : N) : Z.abs (signed s n) = Z.of_N n.
Proof. unfold signed. destruct s; lia. Qed.

Lemma abs_units (e : Z) (x : finite) :
  (e <= d_exp x)%Z ->
  Z.abs (units e x) = (Z.of_N (d_int x) * 10 ^ (d_exp x - e))%Z.
Proof.
  intros H. unfold units. rewrite Z.abs_mul, signed_abs.
  rewrite (Z.abs_eq (10 ^ _)); [reflexivity|].
  apply Z.pow_nonneg. lia.
Qed.

Lemma units_zero (e : Z) (s : bool) (ex : Z) : units e (mkFinite s 0 ex) = 0%Z.
Proof. unfold units. cbn [d_sign d_int d_exp]. now destruct s. Qed.

(** The units of a number are those of its coefficient padded down to a
    lower exponent. *)
Lemma units_padded (e m : Z) (s : bool) (i : N) (ex : Z) :
  (e <= m <= ex)%Z ->
  units e (mkFinite s (i * pow10 (ex - m)) m) = units e (mkFinite s i ex).
Proof.
  intros H. unfold units. cbn [d_sign d_int d_exp].
  replace (ex - e)%Z with ((ex - m) + (m - e))%Z by lia.
  rewrite Zpow10_split by lia.
  unfold signed. rewrite N2Z.inj_mul, pow10_Z by lia.
  destruct s; ring.
Qed.

Lemma coefficient_below (a k bound : Z) :
  (0 <= a)%Z -> (0 <= k)%Z -> (a * 10 ^ k < bound)%Z -> (a < bound)%Z.
Proof.
  intros Ha Hk H. pose proof (@Zpow10_pos k Hk) as P.
  apply Z.le_lt_trans with (a * 10 ^ k)%Z; [|exact H].
  rewrite <- (Z.mul_1_r a) at 1.
  apply Z.mul_le_mono_nonneg_l; lia.
Qed.

(** A non-zero number within the bound has its exponent less than 28 above
    [e]. *)
Lemma exponent_near (e : Z) (i : N) (ex : Z) :
  i <> 0%N -> (e <= ex)%Z -> (Z.of_N i * 10 ^ (ex - e) < 10 ^ 28)%Z ->
  (ex - e < 28)%Z.
Proof.
  intros Hi He H. apply Zpow10_lt; [lia|].
  apply Z.le_lt_trans with (Z.of_N i * 10 ^ (ex - e))%Z; [|exact H].
  pose proof (@Zpow10_pos (ex - e) ltac:(lia)) as P.
  rewrite <- (Z.mul_1_l (10 ^ (ex - e))) at 1.
  apply Z.mul_le_mono_nonneg_r; lia.
Qed.

(** Adding zero to a non-zero number within the bound. *)
Lemma add_zero_exact (e : Z) (s : bool) (i : N) (ex m : Z) :
  (Etiny <= e)%Z -> i <> 0%N -> (e <= m <= ex)%Z -> (ex <= 0)%Z ->
  (Z.of_N i * 10 ^ (ex - e) < 10 ^ 28)%Z ->
  _fix (rescale_pad (mkFinite s i ex) (Z.max m (ex - prec - 1)))
  = Some (mkFinite s (i * pow10 (ex - m)) m).
Proof.
  intros He Hi Hm Hx H.
  pose proof (@exponent_near e i ex Hi ltac:(lia) H) as N28.
  unfold prec. rewrite Z.max_l by lia.
  unfold rescale_pad. cbn [d_sign d_int d_exp].
  apply N.eqb_neq in Hi. rewrite Hi.
  apply fix_id; cbn [d_int d_exp]; [|lia].
  rewrite N2Z.inj_mul, pow10_Z by lia.
  pose proof (@Zpow10_pos (ex - m) ltac:(lia)) as P.
  apply coefficient_below with (k := (m - e)%Z); [lia | lia |].
  rewrite <- Z.mul_assoc, <- Zpow10_split by lia.
  now replace (ex - m + (m - e))%Z with (ex - e)%Z by lia.
Qed.

(** Two non-zero numbers within the bound are aligned at the lower of
    their exponents, neither being replaced. *)
Lemma normalize_aligned (e : Z) (sx sy : bool) (ix iy : N) (ex ey : Z) :
  ix <> 0%N -> iy <> 0%N -> (e <= ex)%Z -> (e <= ey)%Z ->
  (Z.of_N ix * 10 ^ (ex - e) < 10 ^ 28)%Z ->
  (Z.of_N iy * 10 ^ (ey - e) < 10 ^ 28)%Z ->
  normalize (mkFinite sx ix ex) (mkFinite sy iy ey)
  = (mkFinite sx (ix * pow10 (ex - Z.min ex ey)) (Z.min ex ey),
     mkFinite sy (iy * pow10 (ey - Z.min ex ey)) (Z.min ex ey)).
Proof.
  intros Hix Hiy Hex Hey Bx By.
  pose proof (@int_len_padded_below ix (ex - e) Hix ltac:(lia) Bx) as Lx.
  pose proof (@int_len_padded_below iy (ey - e) Hiy ltac:(lia) By) as Ly.
  pose proof (int_len_pos ix) as Px. pose proof (int_len_pos iy) as Py.
  unfold normalize. cbn [d_sign d_int d_exp]. unfold prec.
  destruct (ex <? ey)%Z eqn:S.
  - apply Z.ltb_lt in S. rewrite (Z.min_l ex ey) by lia.
    cbv zeta. cbn [d_sign d_int d_exp].
    destruct (_ <? _)%Z eqn:C; [apply Z.ltb_lt in C; lia|].
    cbn [d_sign d_int d_exp].
    rewrite Z.sub_diag, (pow10_nonpos (k:=0)) by lia.
    now rewrite N.mul_1_r.
  - apply Z.ltb_ge in S. rewrite (Z.min_r ex ey) by lia.
    cbv zeta. cbn [d_sign d_int d_exp].
    destruct (_ <? _)%Z eqn:C; [apply Z.ltb_lt in C; lia|].
    cbn [d_sign d_int d_exp].
    rewrite Z.sub_diag, (pow10_nonpos (k:=0)) by lia.
    now rewrite N.mul_1_r.
Qed.

Lemma units_mk (e : Z) (s : bool) (i : N) (ex : Z) :
  units e (mkFinite s i ex) = (signed s i * 10 ^ (ex - e))%Z.
Proof. reflexivity. Qed.

Lemma add_finite_exact (e : Z) (x y : finite) :
  (Etiny <= e)%Z ->
  (e <= d_exp x <= 0)%Z -> (e <= d_exp y <= 0)%Z ->
  (Z.abs (units e x) + Z.abs (units e y) < 10 ^ 28)%Z ->
  exists z : finite,
    add_finite x y = Some z
    /\ d_exp z = Z.min (d_exp x) (d_exp y)
    /\ units e z = (units e x + units e y)%Z.
Proof.
  intros He Hx Hy B.
  rewrite !abs_units in B by lia.
  destruct x as [sx ix ex], y as [sy iy ey]. cbn [d_sign d_int d_exp] in *.
  set (m := Z.min ex ey).
  assert (Hm : (e <= m <= ex /\ m <= ey /\ m <= 0)%Z) by (unfold m; lia).
  pose proof (@Zpow10_pos (ex - e) ltac:(lia)) as Pxe.
  pose proof (@Zpow10_pos (ey - e) ltac:(lia)) as Pye.
  assert (Bx : (Z.of_N ix * 10 ^ (ex - e) < 10 ^ 28)%Z) by nia.
  assert (By : (Z.of_N iy * 10 ^ (ey - e) < 10 ^ 28)%Z) by nia.
  unfold add_finite. cbn [d_sign d_int d_exp]. fold m.
  destruct (ix =? 0)%N eqn:Zx; destruct (iy =? 0)%N eqn:Zy; cbn [andb].
  - (* both are zero *)
    apply N.eqb_eq in Zx, Zy. subst ix iy.
    exists (mkFinite (sx && sy) 0 m). split; [|split].
    + apply fix_id; cbn [d_int d_exp]; lia.
    + reflexivity.
    + now rewrite !units_zero.
  - apply N.eqb_eq in Zx. apply N.eqb_neq in Zy. subst ix.
    exists (mkFinite sy (iy * pow10 (ey - m)) m). split; [|split].
    + apply (@add_zero_exact e sy iy ey m); trivial; lia.
    + reflexivity.
    + rewrite units_padded by lia. rewrite units_zero. lia.
  - apply N.eqb_eq in Zy. apply N.eqb_neq in Zx. subst iy.
    exists (mkFinite sx (ix * pow10 (ex - m)) m). split; [|split].
    + apply (@add_zero_exact e sx ix ex m); trivial; lia.
    + reflexivity.
    + rewrite units_padded by lia. rewrite units_zero. lia.
  - apply N.eqb_neq in Zx, Zy.
    rewrite (@normalize_aligned e sx sy ix iy ex ey) by (trivial; lia).
    fold m. cbn [d_sign d_int d_exp].
    set (ux := (ix * pow10 (ex - m))%N). set (uy := (iy * pow10 (ey - m))%N).
    pose proof (@units_padded e m sx ix ex ltac:(lia)) as Ux.
    pose proof (@units_padded e m sy iy ey ltac:(lia)) as Uy.
    fold ux in Ux. fold uy in Uy. rewrite <- Ux, <- Uy.
    pose proof (@Zpow10_pos (m - e) ltac:(lia)) as Pm.
    assert (Ax : (Z.of_N ux * 10 ^ (m - e) = Z.of_N ix * 10 ^ (ex - e))%Z).
    { pose proof (f_equal Z.abs Ux) as A.
      rewrite !abs_units in A by (cbn [d_exp]; lia). exact A. }
    assert (Ay : (Z.of_N uy * 10 ^ (m - e) = Z.of_N iy * 10 ^ (ey - e))%Z).
    { pose proof (f_equal Z.abs Uy) as A.
      rewrite !abs_units in A by (cbn [d_exp]; lia). exact A. }
    assert (Bu : (Z.of_N ux + Z.of_N uy < 10 ^ 28)%Z).
    { apply coefficient_below with (k := (m - e)%Z); [lia | lia |]. nia. }
    rewrite !units_mk. clearbody ux uy.
    destruct (Bool.eqb sx sy) eqn:Sg; cbn [negb].
    + apply Bool.eqb_prop in Sg. subst sy.
      exists (mkFinite sx (ux + uy) m). split; [|split].
      * apply fix_id; cbn [d_int d_exp]; lia.
      * reflexivity.
      * rewrite units_mk. unfold signed. destruct sx; lia.
    + destruct (ux =? uy)%N eqn:Eq.
      * apply N.eqb_eq in Eq. subst uy.
        exists (mkFinite false 0 m). split; [|split].
        -- apply fix_id; cbn [d_int d_exp]; lia.
        -- reflexivity.
        -- rewrite units_zero. unfold signed.
           destruct sx, sy; try discriminate; lia.
      * apply N.eqb_neq in Eq. destruct (ux <? uy)%N eqn:Lt.
        -- apply N.ltb_lt in Lt. cbn [d_sign d_int d_exp].
           exists (mkFinite sy (uy - ux) m). split; [|split].
           ++ apply fix_id; cbn [d_int d_exp]; lia.
           ++ reflexivity.
           ++ rewrite units_mk. unfold signed.
              destruct sx, sy; try discriminate; lia.
        -- apply N.ltb_ge in Lt. cbn [d_sign d_int d_exp].
           exists (mkFinite sx (ux - uy) m). split; [|split].
           ++ apply fix_id; cbn [d_int d_exp]; lia.
           ++ reflexivity.
           ++ rewrite units_mk. unfold signed.
              destruct sx, sy; try discriminate; lia.
Qed.

(** ** Exact comparison *)

Lemma signed_zero_iff (s : bool) (n : N) : signed s n = 0%Z <-> n = 0%N.
Proof. unfold signed. destruct s; lia. Qed.

Lemma eqb_finite_units (e : Z) (x y : finite) :
  (e <= d_exp x)%Z -> (e <= d_exp y)%Z ->
  eqb_finite x y = (units e x =? units e y)%Z.
Proof.
  intros Hx Hy. destruct x as [sx ix ex], y as [sy iy ey].
  cbn [d_sign d_int d_exp] in *. unfold eqb_finite, adjusted.
  cbn [d_sign d_int d_exp]. rewrite !units_mk.
  pose proof (@Zpow10_pos (ex - e) ltac:(lia)) as Pxe.
  pose proof (@Zpow10_pos (ey - e) ltac:(lia)) as Pye.
  destruct (ix =? 0)%N eqn:Zx.
  { apply N.eqb_eq in Zx. subst ix.
    replace (signed sx 0) with 0%Z by (now destruct sx). rewrite Z.mul_0_l.
    destruct (iy =? 0)%N eqn:Zy.
    - apply N.eqb_eq in Zy. subst iy.
      replace (signed sy 0) with 0%Z by (now destruct sy). reflexivity.
    - apply N.eqb_neq in Zy. symmetry. apply Z.eqb_neq.
      unfold signed. destruct sy; nia. }
  apply N.eqb_neq in Zx.
  destruct (iy =? 0)%N eqn:Zy.
  { apply N.eqb_eq in Zy. subst iy.
    replace (signed sy 0) with 0%Z by (now destruct sy). rewrite Z.mul_0_l.
    symmetry. apply Z.eqb_neq. unfold signed. destruct sx; nia. }
  apply N.eqb_neq in Zy.
  destruct (Bool.eqb sx sy) eqn:Sg; cbn [negb].
  2: { symmetry. apply Z.eqb_neq. unfold signed.
       destruct sx, sy; try discriminate; nia. }
  apply Bool.eqb_prop in Sg. subst sy.
  set (m := Z.min ex ey).
  pose proof (@Zpow10_pos (m - e) ltac:(unfold m; lia)) as Pm.
  pose proof (@Zpow10_pos (ex - m) ltac:(unfold m; lia)) as Pxm.
  pose proof (@Zpow10_pos (ey - m) ltac:(unfold m; lia)) as Pym.
  assert (Sx : (10 ^ (ex - e) = 10 ^ (ex - m) * 10 ^ (m - e))%Z).
  { rewrite <- Zpow10_split by (unfold m; lia). f_equal. lia. }
  assert (Sy : (10 ^ (ey - e) = 10 ^ (ey - m) * 10 ^ (m - e))%Z).
  { rewrite <- Zpow10_split by (unfold m; lia). f_equal. lia. }
  (* the padded coefficients *)
  assert (Dx : Z.of_N (ix * pow10 (ex - ey)) = (Z.of_N ix * 10 ^ (ex - m))%Z
               /\ Z.of_N (iy * pow10 (ey - ex)) = (Z.of_N iy * 10 ^ (ey - m))%Z).
  { rewrite !N2Z.inj_mul. unfold m.
    destruct (Z.le_ge_cases ex ey) as [L|G].
    - rewrite (Z.min_l ex ey) by lia.
      rewrite (pow10_nonpos (k := ex - ey)) by lia.
      rewrite pow10_Z by lia. rewrite Z.sub_diag. split; reflexivity.
    - rewrite (Z.min_r ex ey) by lia.
      rewrite (pow10_nonpos (k := ey - ex)) by lia.
      rewrite pow10_Z by lia. rewrite Z.sub_diag. split; reflexivity. }
  destruct Dx as [Dx Dy].
  assert (Eq : (signed sx ix * 10 ^ (ex - e) =? signed sx iy * 10 ^ (ey - e))%Z
               = (ix * pow10 (ex - ey) =? iy * pow10 (ey - ex))%N).
  { rewrite Sx, Sy.
    destruct (ix * pow10 (ex - ey) =? iy * pow10 (ey - ex))%N eqn:P.
    - apply N.eqb_eq in P. apply (f_equal Z.of_N) in P. rewrite Dx, Dy in P.
      apply Z.eqb_eq. unfold signed. destruct sx; nia.
    - apply N.eqb_neq in P. apply Z.eqb_neq. intros Q. apply P.
      apply N2Z.inj. rewrite Dx, Dy. unfold signed in Q. destruct sx; nia. }
  rewrite Eq.
  destruct (ex + int_len ix - 1 =? ey + int_len iy - 1)%Z eqn:Adj;
    [reflexivity|]. apply Z.eqb_neq in Adj.
  symmetry. apply N.eqb_neq. intros P. apply Adj.
  unfold m in *.
  destruct (Z.le_ge_cases ex ey) as [L|G].
  - rewrite (pow10_nonpos (k := ex - ey)) in P by lia.
    rewrite N.mul_1_r in P. subst ix.
    rewrite int_len_pow10 by (trivial; lia). lia.
  - rewrite (pow10_nonpos (k := ey - ex)) in P by lia.
    rewrite N.mul_1_r in P. subst iy.
    rewrite int_len_pow10 by (trivial; lia). lia.
Qed.

(** ** Exact absolute value *)

Lemma abs_exact (e : Z) (x : finite) :
  (Etiny <= e)%Z -> (e <= d_exp x <= 0)%Z ->
  (Z.abs (units e x) < 10 ^ 28)%Z ->
  exists z : finite,
    abs (Fin x) = Some (Fin z)
    /\ d_sign z = false
    /\ units e z = Z.abs (units e x).
Proof.
  intros He Hx B. rewrite abs_units in * by lia.
  destruct x as [s i ex]. cbn [d_sign d_int d_exp] in *.
  pose proof (@Zpow10_pos (ex - e) ltac:(lia)) as P.
  assert (Bi : (Z.of_N i < 10 ^ 28)%Z).
  { apply coefficient_below with (k := (ex - e)%Z); lia. }
  exists (mkFinite false i ex). unfold abs, neg, pos, copy_abs, copy_negate.
  cbn [d_sign d_int d_exp].
  split; [|split; [reflexivity | reflexivity]].
  destruct s; destruct (i =? 0)%N; cbn [negb];
    rewrite fix_id by (cbn [d_int d_exp]; lia); reflexivity.
Qed.

(** ** Exact sums *)

Lemma total_abs_units_nonneg (e : Z) (xs : list finite) :
  (0 <= total_abs_units e xs)%Z.
Proof.
  unfold total_abs_units. induction xs as [|x xs IH]; cbn [fold_right]; lia.
Qed.

Lemma total_units_app (e : Z) (xs ys : list finite) :
  total_units e (xs ++ ys) = (total_units e xs + total_units e ys)%Z.
Proof.
  unfold total_units. induction xs as [|x xs IH]; [reflexivity|].
  cbn [app fold_right]. lia.
Qed.

Lemma total_abs_units_app (e : Z) (xs ys : list finite) :
  total_abs_units e (xs ++ ys)
  = (total_abs_units e xs + total_abs_units e ys)%Z.
Proof.
  unfold total_abs_units. induction xs as [|x xs IH]; [reflexivity|].
  cbn [app fold_right]. lia.
Qed.

Lemma total_units_bound (e : Z) (xs : list finite) :
  (Z.abs (total_units e xs) <= total_abs_units e xs)%Z.
Proof.
  unfold total_units, total_abs_units.
  induction xs as [|x xs IH]; cbn [fold_right]; lia.
Qed.

Lemma fold_add_exact (e : Z) (rest : list finite) :
  (Etiny <= e)%Z ->
  forall z0 : finite,
    (e <= d_exp z0 <= 0)%Z -> in_range e rest ->
    (Z.abs (units e z0) + total_abs_units e rest < 10 ^ 28)%Z ->
    exists z : finite,
      fold_left (fun acc dv => a <- acc ;;; add a dv) (map Fin rest)
                (Some (Fin z0))
      = Some (Fin z)
      /\ (e <= d_exp z <= 0)%Z
      /\ units e z = (units e z0 + total_units e rest)%Z.
Proof.
  intros He. induction rest as [|x rest IH]; intros z0 Hz R B.
  - exists z0. cbn [map fold_left total_units fold_right]. split; [reflexivity|].
    split; [exact Hz | lia].
  - inversion R as [|x' rest' Hx R']; subst.
    cbn [total_abs_units fold_right] in B. fold (total_abs_units e rest) in B.
    pose proof (total_abs_units_nonneg e rest) as NN.
    destruct (@add_finite_exact e z0 x He Hz Hx ltac:(lia)) as (z1 & A & E1 & U1).
    cbn [map fold_left bind add]. rewrite A. cbn [option_map].
    destruct (IH z1 ltac:(lia) R' ltac:(lia)) as (z & F & Ez & Uz).
    exists z. split; [exact F|]. split; [exact Ez|].
    cbn [total_units fold_right]. fold (total_units e rest). lia.
Qed.

Lemma sum_decimals_exact (e : Z) (xs : list finite) :
  (Etiny <= e <= 0)%Z -> in_range e xs ->
  (total_abs_units e xs < 10 ^ 28)%Z ->
  exists z : finite,
    sum_decimals (map Fin xs) = Some (Fin z)
    /\ (e <= d_exp z <= 0)%Z
    /\ units e z = total_units e xs.
Proof.
  intros He R B. destruct xs as [|x xs].
  - exists (mkFinite false 0 0). split; [reflexivity|].
    split; [cbn [d_exp]; lia | reflexivity].
  - inversion R as [|x' xs' Hx R']; subst.
    cbn [total_abs_units fold_right] in B. fold (total_abs_units e xs) in B.
    pose proof (total_abs_units_nonneg e xs) as NN.
    assert (Z0 : units e (mkFinite false 0 0) = 0%Z) by apply units_zero.
    destruct (@add_finite_exact e x (mkFinite false 0 0) ltac:(lia) Hx
                ltac:(cbn [d_exp]; lia) ltac:(rewrite Z0; lia))
      as (z1 & A & E1 & U1).
    cbn [d_exp] in E1.
    destruct (@fold_add_exact e xs ltac:(lia) z1 ltac:(lia) R' ltac:(lia))
      as (z & F & Ez & Uz).
    exists z. cbn [sum_decimals map]. unfold zero.
    cbn [add]. rewrite A. cbn [option_map]. split; [exact F|].
    split; [exact Ez|].
    cbn [total_units fold_right]. fold (total_units e xs). lia.
Qed.

(** ** The hypothesis on a row *)

Lemma least_exponent_le (xs : list finite) (x : finite) :
  In x xs -> (least_exponent xs <= d_exp x)%Z.
Proof.
  induction xs as [|y xs IH]; [contradiction|].
  cbn [least_exponent fold_right]. fold (least_exponent xs).
  intros [->|H]; [lia|]. specialize (IH H). lia.
Qed.

Lemma least_exponent_nonpos (xs : list finite) : (least_exponent xs <= 0)%Z.
Proof.
  induction xs as [|y xs IH]; cbn [least_exponent fold_right]; [lia|].
  fold (least_exponent xs). lia.
Qed.

Lemma fits_elim (xs : list finite) :
  Forall (fun x => (d_exp x <= 0)%Z) xs ->
  fits xs = true ->
  (Etiny <= least_exponent xs <= 0)%Z
  /\ in_range (least_exponent xs) xs
  /\ (total_abs_units (least_exponent xs) xs < 10 ^ 28)%Z.
Proof.
  unfold fits. cbv zeta. intros R H.
  apply andb_true_iff in H as [E B].
  apply Z.leb_le in E. apply Z.ltb_lt in B.
  pose proof (least_exponent_nonpos xs) as NP.
  split; [lia|]. split; [|exact B].
  rewrite Forall_forall in R. apply Forall_forall. intros x Hx.
  pose proof (least_exponent_le xs x Hx) as L.
  specialize (R x Hx). cbv beta in R. lia.
Qed.

(** ** validate_row_totals on rows that fit *)

Lemma units_copy_negate (e : Z) (x : finite) :
  units e (copy_negate x) = (- units e x)%Z.
Proof.
  unfold units, copy_negate, signed. cbn [d_sign d_int d_exp].
  destruct (d_sign x); cbn [negb]; lia.
Qed.

Lemma map_removelast (A B : Type) (f : A -> B) (l : list A) :
  map f (removelast l) = removelast (map f l).
Proof.
  induction l as [|x l IH]; [reflexivity|].
  destruct l as [|y l]; [reflexivity|].
  cbn [removelast map] in *. now rewrite IH.
Qed.

Lemma last_map (A B : Type) (f : A -> B) (l : list A) (d : A) :
  f (last l d) = last (map f l) (f d).
Proof.
  induction l as [|x l IH]; [reflexivity|].
  destruct l as [|y l]; [reflexivity|]. exact IH.
Qed.

Lemma validate_row_fits (fmt : number_format) (row_idx : nat) (r : row)
      (parts : list finite) (total : finite) :
  map snd (numeric_cells r fmt) = map Fin (parts ++ [total]) ->
  Forall (fun x => (d_exp x <= 0)%Z) (parts ++ [total]) ->
  (2 <= List.length parts)%nat ->
  fits (parts ++ [total]) = true ->
  let e := least_exponent (parts ++ [total]) in
  exists part_sum : finite,
    sum_decimals (map Fin parts) = Some (Fin part_sum)
    /\ units e part_sum = total_units e parts
    /\ (total_units e parts = units e total
        /\ validate_row fmt row_idx r
           = Some (Pass row_idx (to_str (Fin total)) (to_str (Fin part_sum)))
        \/ total_units e parts <> units e total
           /\ exists diff : finite,
                d_sign diff = false
                /\ units e diff
                   = Z.abs (total_units e parts - units e total)
                /\ validate_row fmt row_idx r
                   = Some (Mismatch row_idx (to_str (Fin total))
                             (to_str (Fin part_sum)) (to_str (Fin diff)))).
Proof.
  intros Hn Hneg Hlen Hfit e.
  destruct (fits_elim Hneg Hfit) as (He & R & B). fold e in He, R, B.
  unfold in_range in R. apply Forall_app in R as [Rp Rt].
  inversion Rt as [|t' l' Ht _]; subst t' l'.
  rewrite total_abs_units_app in B.
  assert (Bt : total_abs_units e [total] = Z.abs (units e total)).
  { unfold total_abs_units. cbn [fold_right]. lia. }
  rewrite Bt in B. clear Bt.
  pose proof (total_abs_units_nonneg e parts) as NNp.
  destruct (@sum_decimals_exact e parts He Rp ltac:(lia)) as (ps & HS & Eps & Ups).
  exists ps. split; [exact HS|]. split; [exact Ups|].
  pose proof (total_units_bound e parts) as TB.
  (* the script's list of numeric cells *)
  unfold validate_row.
  set (nums := numeric_cells r fmt) in *.
  assert (Ln : List.length nums = S (List.length parts)).
  { rewrite <- (length_map snd nums), Hn, length_map, length_app.
    cbn [List.length]. lia. }
  destruct (List.length nums <? 3)%nat eqn:L3; [apply Nat.ltb_lt in L3; lia|].
  assert (Pn : map snd (removelast nums) = map Fin parts).
  { rewrite map_removelast, Hn, map_app. cbn [map]. apply removelast_last. }
  assert (Tn : snd (last nums ([], zero)) = Fin total).
  { rewrite (last_map snd), Hn, map_app. cbn [map]. apply last_last. }
  destruct (last nums ([], zero)) as [last_str last_val].
  cbn [snd] in Tn. subst last_val.
  rewrite Pn, HS. cbn [bind eqb].
  rewrite (@eqb_finite_units e ps total) by lia.
  rewrite Ups.
  destruct (total_units e parts =? units e total)%Z eqn:Q.
  - apply Z.eqb_eq in Q. left. split; [exact Q | reflexivity].
  - apply Z.eqb_neq in Q. right. split; [exact Q|].
    assert (Rn : (e <= d_exp (copy_negate total) <= 0)%Z) by exact Ht.
    destruct (@add_finite_exact e ps (copy_negate total) ltac:(lia) Eps Rn
                ltac:(rewrite units_copy_negate; lia))
      as (delta & A & Ed & Ud).
    rewrite units_copy_negate in Ud. cbn [d_exp copy_negate] in Ed.
    destruct (@abs_exact e delta ltac:(lia) ltac:(lia) ltac:(lia))
      as (diff & Ab & Sd & Udiff).
    exists diff. split; [exact Sd|]. split; [rewrite Udiff, Ud, Ups; f_equal; lia|].
    cbn [sub add]. rewrite A. cbn [option_map bind]. rewrite Ab.
    reflexivity.
Qed.

Lemma validate_row_skipped (fmt : number_format) (row_idx : nat) (r : row) :
  (List.length (numeric_cells r fmt) < 3)%nat ->
  validate_row fmt row_idx r = Some (Skipped row_idx).
Proof.
  intros H. unfold validate_row. apply Nat.ltb_lt in H. now rewrite H.
Qed.

(** ** The constructor on normalised strings *)

Lemma digit_value_le (c : char) : (digit_value c <= 9)%N.
Proof.
  unfold digit_value.
  destruct (find _ nd_zeros) as [z|] eqn:F; [|lia].
  apply find_some in F as [_ B]. unfold between in B.
  apply andb_true_iff in B as [B1 B2].
  apply N.leb_le in B1. apply N.leb_le in B2. lia.
Qed.

Lemma ascii_digit_range (c : char) : (48 <= ascii_digit c <= 57)%N.
Proof. unfold ascii_digit. pose proof (digit_value_le c). lia. Qed.

Lemma ascii_digit_is_digit (c : char) : is_ascii_digit (ascii_digit c) = true.
Proof.
  pose proof (ascii_digit_range c) as R. unfold is_ascii_digit, between.
  apply andb_true_iff. split; apply N.leb_le; lia.
Qed.

(** The only decimal digits among the ASCII characters are "0" to "9". *)
Lemma ascii_decimal (c : char) :
  isdecimal c = true -> (c <= 127)%N -> (48 <= c <= 57)%N.
Proof.
  intros H A. unfold isdecimal in H. apply existsb_exists in H.
  destruct H as (z & I & B). unfold between in B.
  apply andb_true_iff in B as [B1 B2].
  apply N.leb_le in B1. apply N.leb_le in B2.
  unfold nd_zeros in I. cbn [In] in I.
  repeat (destruct I as [I|I]; [lia|]). destruct I.
Qed.

Lemma ascii_digit_ascii (c : char) :
  (48 <= c <= 57)%N -> ascii_digit c = c.
Proof.
  intros R. unfold ascii_digit, digit_value, nd_zeros. cbn [find].
  replace (between 48%N (48 + 9)%N c) with true.
  - lia.
  - symmetry. unfold between. apply andb_true_iff.
    split; apply N.leb_le; lia.
Qed.

Lemma ascii_of_char_digit (c : char) :
  isdecimal c = true -> ascii_of_char c = Some (ascii_digit c).
Proof.
  intros H. unfold ascii_of_char.
  destruct ((0 <? c)%N && (c <=? 127)%N) eqn:A.
  - apply andb_true_iff in A as [_ A]. apply N.leb_le in A.
    now rewrite ascii_digit_ascii by (now apply ascii_decimal).
  - now rewrite (@digit_not_space c H), H.
Qed.

Lemma ascii_of_chars_digits (ds : str) :
  forallb isdecimal ds = true ->
  ascii_of_chars ds = Some (map ascii_digit ds).
Proof.
  induction ds as [|c ds IH]; [reflexivity|]. cbn [forallb ascii_of_chars map].
  intros H. apply andb_true_iff in H as [Hc Hds].
  now rewrite (@ascii_of_char_digit c Hc), IH.
Qed.

Lemma ascii_of_chars_app (a b a' b' : str) :
  ascii_of_chars a = Some a' -> ascii_of_chars b = Some b' ->
  ascii_of_chars (a ++ b) = Some (a' ++ b').
Proof.
  revert a'. induction a as [|c a IH]; intros a' Ha Hb.
  - cbn in Ha. injection Ha as <-. exact Hb.
  - cbn [ascii_of_chars app] in *.
    destruct (ascii_of_char c) as [x|]; [|discriminate].
    destruct (ascii_of_chars a) as [r|] eqn:E; [|discriminate].
    injection Ha as <-. now rewrite (IH r eq_refl Hb).
Qed.

Lemma forallb_map_ascii_digit (ds : str) :
  forallb is_ascii_digit (map ascii_digit ds) = true.
Proof.
  induction ds as [|c ds IH]; [reflexivity|]. cbn [map forallb].
  now rewrite ascii_digit_is_digit, IH.
Qed.

(** The number read from any string is below the power of ten of its
    length. *)
Lemma int_of_decimal_bound (l : str) :
  forall acc : N,
    (fold_left (fun a c => (10 * a + digit_value c)%N) l acc + 1
     <= (acc + 1) * 10 ^ N.of_nat (List.length l))%N.
Proof.
  induction l as [|c l IH]; intros acc.
  - cbn. lia.
  - cbn [fold_left List.length]. rewrite Nat2N.inj_succ, N.pow_succ_r'.
    specialize (IH (10 * acc + digit_value c)%N).
    pose proof (digit_value_le c) as D.
    pose proof (N.pow_nonzero 10 (N.of_nat (List.length l)) ltac:(lia)) as P.
    nia.
Qed.

Lemma int_of_decimal_len (l : str) :
  l <> [] -> (int_len (int_of_decimal l) <= Z.of_nat (List.length l))%Z.
Proof.
  intros H. apply int_len_le.
  - destruct l; [congruence|]. cbn [List.length]. lia.
  - unfold int_of_decimal. pose proof (int_of_decimal_bound l 0) as B. lia.
Qed.

(** A string that starts with an ASCII digit is not a special value. *)
Lemma after_prefix_digit (x : char) (p s : str) (c : char) :
  (48 <= c <= 57)%N -> (97 <= x)%N -> after_prefix (x :: p) (c :: s) = None.
Proof.
  intros Hc Hx. cbn [after_prefix]. unfold ascii_lower, between.
  destruct ((65 <=? c)%N && (c <=? 90)%N) eqn:B.
  - apply andb_true_iff in B as [B _]. apply N.leb_le in B. lia.
  - destruct (c =? x)%N eqn:E; [apply N.eqb_eq in E; lia | reflexivity].
Qed.

(** The finite numeral made of the ASCII copies of the digits of a plain
    number. *)
Lemma finite_of_plain (sign : bool) (c : char) (ip mid fp : str) :
  mid = [] \/ mid = [DOT] ->
  exists (coeff : N) (fracdigits : nat),
    finite_of sign (ascii_digit c :: map ascii_digit ip ++ mid
                    ++ map ascii_digit fp)
    = (if representable coeff (- Z.of_nat fracdigits) (Z.of_nat fracdigits)
       then Some (Fin (mkFinite sign coeff (- Z.of_nat fracdigits)))
       else None)
    /\ (fracdigits <= List.length fp)%nat
    /\ (int_len coeff <= Z.of_nat (S (List.length ip + List.length fp)))%Z.
Proof.
  intros Hmid. unfold finite_of.
  pose proof (forallb_map_ascii_digit ip) as Dip.
  pose proof (forallb_map_ascii_digit fp) as Dfp.
  pose proof (ascii_digit_is_digit c) as Dc.
  destruct Hmid as [-> | ->].
  - (* no point: every character is a digit *)
    cbn [app].
    rewrite (@span_all is_ascii_digit (ascii_digit c :: map ascii_digit ip
                                        ++ map ascii_digit fp))
      by (cbn [forallb]; now rewrite Dc, forallb_app, Dip, Dfp).
    cbn [nonempty orb negb exponent_of]. rewrite app_nil_r.
    exists (int_of_decimal (ascii_digit c :: map ascii_digit ip
                            ++ map ascii_digit fp)), 0%nat.
    cbn [List.length Z.of_nat Z.opp]. rewrite Z.sub_0_r.
    split; [reflexivity|]. split; [lia|].
    etransitivity; [apply int_of_decimal_len; discriminate|].
    cbn [List.length]. rewrite length_app, !length_map. lia.
  - change (ascii_digit c :: map ascii_digit ip ++ [DOT] ++ map ascii_digit fp)
      with ((ascii_digit c :: map ascii_digit ip)
            ++ DOT :: map ascii_digit fp).
    rewrite (@span_app_stop is_ascii_digit (ascii_digit c :: map ascii_digit ip)
               DOT (map ascii_digit fp))
      by (trivial; cbn [forallb]; now rewrite Dc, Dip).
    change (DOT =? DOT)%N with true. cbv iota.
    rewrite (@span_all is_ascii_digit (map ascii_digit fp)) by exact Dfp.
    cbn [nonempty orb negb exponent_of].
    exists (int_of_decimal ((ascii_digit c :: map ascii_digit ip)
                            ++ map ascii_digit fp)),
           (List.length (map ascii_digit fp)).
    rewrite Z.sub_0_l.
    split; [reflexivity|]. split; [rewrite length_map; lia|].
    etransitivity; [apply int_of_decimal_len; discriminate|].
    cbn [app List.length]. rewrite length_app, !length_map. lia.
Qed.

Lemma strip_normalized (s : str) : is_normalized s = true -> strip s = s.
Proof.
  unfold is_normalized. destruct s as [|c t]; [discriminate|].
  destruct (c =? HYPHEN)%N eqn:E.
  - apply N.eqb_eq in E. subst c. intros H.
    rewrite strip_cons_keep by reflexivity. f_equal.
    pose proof (@is_plain_number_chars t H) as C.
    destruct (@plain_number_head t H) as (x & u & -> & Hx).
    apply rstrip_with_keeps. now apply plain_number_last.
  - apply strip_plain.
Qed.

Lemma ascii_of_chars_plain (c : char) (ip mid fp : str) :
  isdecimal c = true -> forallb isdecimal ip = true ->
  mid = [] \/ mid = [DOT] -> forallb isdecimal fp = true ->
  ascii_of_chars (c :: ip ++ mid ++ fp)
  = Some (ascii_digit c :: map ascii_digit ip ++ mid ++ map ascii_digit fp).
Proof.
  intros Hc Hip Hmid Hfp.
  change (c :: ip ++ mid ++ fp) with ((c :: ip) ++ mid ++ fp).
  change (ascii_digit c :: map ascii_digit ip ++ mid ++ map ascii_digit fp)
    with (map ascii_digit (c :: ip) ++ mid ++ map ascii_digit fp).
  apply ascii_of_chars_app.
  - apply ascii_of_chars_digits. cbn [forallb]. now rewrite Hc, Hip.
  - apply ascii_of_chars_app.
    + destruct Hmid as [-> | ->]; reflexivity.
    + now apply ascii_of_chars_digits.
Qed.

Lemma plain_no_underscore (s : str) :
  forallb (fun c => isdecimal c || (c =? DOT)%N) s = true ->
  replace 95%N [] s = s.
Proof.
  intros C. apply replace_id. now apply plain_chars_no.
Qed.

(** What the constructor makes of a plain number, given the sign. *)
Lemma of_str_plain_steps (sign : bool) (p : str) :
  is_plain_number p = true ->
  exists p' : str,
    ascii_of_chars p = Some p'
    /\ (exists (d : char) (t : str), p' = d :: t /\ (48 <= d <= 57)%N)
    /\ exists (coeff : N) (fracdigits : nat),
         finite_of sign p'
         = (if representable coeff (- Z.of_nat fracdigits)
                             (Z.of_nat fracdigits)
            then Some (Fin (mkFinite sign coeff (- Z.of_nat fracdigits)))
            else None)
         /\ (fracdigits <= List.length p)%nat
         /\ (int_len coeff <= Z.of_nat (List.length p))%Z.
Proof.
  intros H.
  destruct (@is_plain_number_elim p H) as (c & ip & mid & fp & -> & Hc & Hip & Hmid & Hfp).
  exists (ascii_digit c :: map ascii_digit ip ++ mid ++ map ascii_digit fp).
  split; [now apply ascii_of_chars_plain|]. split.
  - eexists _, _. split; [reflexivity | apply ascii_digit_range].
  - destruct (@finite_of_plain sign c ip mid fp Hmid) as (coeff & fd & F & L1 & L2).
    exists coeff, fd. split; [exact F|].
    cbn [List.length]. rewrite !length_app. split; lia.
Qed.

Lemma of_str_digit_head (sign : bool) (d : char) (t : str) :
  (48 <= d <= 57)%N ->
  match after_prefix (lit "nan") (d :: t) with
  | Some rest => option_map (NaN sign false) (payload_of rest)
  | None =>
      match after_prefix (lit "snan") (d :: t) with
      | Some rest => option_map (NaN sign true) (payload_of rest)
      | None =>
          match after_prefix (lit "inf") (d :: t) with
          | Some rest =>
              match rest with
              | [] => Some (Inf sign)
              | _ :: _ =>
                  match after_prefix (lit "inity") rest with
                  | Some [] => Some (Inf sign)
                  | _ => None
                  end
              end
          | None => finite_of sign (d :: t)
          end
      end
  end = finite_of sign (d :: t).
Proof.
  intros R.
  change (lit "nan") with (110%N :: lit "an").
  change (lit "snan") with (115%N :: lit "nan").
  change (lit "inf") with (105%N :: lit "nf").
  now rewrite !after_prefix_digit by (trivial; lia).
Qed.

Lemma of_str_normalized (s0 tail : str) :
  is_normalized s0 = true -> tail = [] \/ tail = [LF] ->
  exists (sign : bool) (coeff : N) (fracdigits : nat),
    of_str (s0 ++ tail)
    = (if representable coeff (- Z.of_nat fracdigits) (Z.of_nat fracdigits)
       then Some (Fin (mkFinite sign coeff (- Z.of_nat fracdigits)))
       else None)
    /\ (fracdigits <= List.length s0)%nat
    /\ (int_len coeff <= Z.of_nat (List.length s0))%Z.
Proof.
  intros H T. unfold of_str, numeric_as_ascii.
  rewrite strip_pad_r by (destruct T as [-> | ->]; reflexivity).
  rewrite (@strip_normalized s0 H).
  unfold is_normalized in H. destruct s0 as [|c t]; [discriminate|].
  destruct (c =? HYPHEN)%N eqn:E.
  - apply N.eqb_eq in E. subst c.
    pose proof (@is_plain_number_chars t H) as C.
    rewrite (replace_cons_ne 95%N HYPHEN) by reflexivity.
    rewrite (@plain_no_underscore _ C).
    destruct (@of_str_plain_steps true t H)
      as (p' & A & (d & u & -> & R) & coeff & fd & F & L1 & L2).
    cbn [ascii_of_chars]. rewrite A.
    change (ascii_of_char HYPHEN) with (Some HYPHEN).
    unfold HYPHEN. rewrite N.eqb_refl. cbv iota beta.
    rewrite (@of_str_digit_head true d u R).
    exists true, coeff, fd. split; [exact F|]. cbn [List.length]. lia.
  - pose proof (@is_plain_number_chars (c :: t) H) as C.
    rewrite (@plain_no_underscore _ C).
    destruct (@of_str_plain_steps false (c :: t) H)
      as (p' & A & (d & u & -> & R) & coeff & fd & F & L1 & L2).
    rewrite A.
    replace (d =? 45)%N with false by (symmetry; apply N.eqb_neq; lia).
    replace (d =? 43)%N with false by (symmetry; apply N.eqb_neq; lia).
    cbv iota beta.
    rewrite (@of_str_digit_head false d u R).
    exists false, coeff, fd. split; [exact F|]. split; [exact L1 | exact L2].
Qed.

(** ** The numeric cells of a row *)

Lemma to_decimal_normalized (c : cell) (fmt : number_format) (text : str) :
  normalize_number_string c fmt = Some text ->
  exists (sign : bool) (coeff : N) (fracdigits : nat),
    to_decimal (Some text)
    = (if representable coeff (- Z.of_nat fracdigits) (Z.of_nat fracdigits)
       then Some (Fin (mkFinite sign coeff (- Z.of_nat fracdigits)))
       else None)
    /\ (fracdigits <= List.length text)%nat
    /\ (int_len coeff <= Z.of_nat (List.length text))%Z.
Proof.
  intros H. destruct c as [raw|]; [|discriminate].
  destruct (normalize_shape raw fmt) as [N|(s0 & tail & E & P & T)];
    [congruence|].
  rewrite E in H. injection H as <-.
  assert (T' : tail = [] \/ tail = [LF]) by (destruct T as [T|[T _]]; auto).
  destruct (@of_str_normalized s0 tail P T') as (sign & coeff & fd & O & L1 & L2).
  exists sign, coeff, fd. cbn [to_decimal]. split; [exact O|].
  rewrite length_app. split; lia.
Qed.

Lemma representable_short (coeff : N) (fracdigits : nat) :
  (Z.of_nat fracdigits <= MAX_PREC)%Z -> (int_len coeff <= MAX_PREC)%Z ->
  representable coeff (- Z.of_nat fracdigits) (Z.of_nat fracdigits) = true.
Proof.
  intros F L. unfold representable.
  unfold MIN_ETINY, MIN_EMIN, MAX_EMAX, MAX_PREC in *.
  repeat (apply andb_true_iff; split); apply Z.leb_le; lia.
Qed.

(** Every numeric cell is a finite number without a positive exponent. *)
Lemma numeric_cells_finite (r : row) (fmt : number_format) :
  map snd (numeric_cells r fmt) = map Fin (finite_cells r fmt)
  /\ Forall (fun x => (d_exp x <= 0)%Z) (finite_cells r fmt).
Proof.
  unfold finite_cells. induction r as [|c r [IH1 IH2]]; [split; constructor|].
  cbn [numeric_cells].
  destruct (normalize_number_string c fmt) as [text|] eqn:N; [|now split].
  destruct (@to_decimal_normalized c fmt text N)
    as (sign & coeff & fd & D & _ & _).
  rewrite D. destruct (representable _ _ _); [|now split].
  cbn [map flat_map snd finite_part app]. split.
  - now rewrite IH1.
  - constructor; [cbn [d_exp]; lia | exact IH2].
Qed.

(** The numeric cells are the cells that normalise, as long as no
    normalised string has [10^18] characters or more. *)
Lemma numeric_cells_normalized (r : row) (fmt : number_format) :
  (forall text : str, In text (normalized_cells r fmt) ->
                      (Z.of_nat (List.length text) <= MAX_PREC)%Z) ->
  map fst (numeric_cells r fmt) = normalized_cells r fmt.
Proof.
  unfold normalized_cells. induction r as [|c r IH]; intros H; [reflexivity|].
  cbn [numeric_cells flat_map] in *.
  destruct (normalize_number_string c fmt) as [text|] eqn:N.
  - destruct (@to_decimal_normalized c fmt text N)
      as (sign & coeff & fd & D & L1 & L2).
    assert (Ht : (Z.of_nat (List.length text) <= MAX_PREC)%Z)
      by (apply H; now left).
    rewrite D, representable_short by lia.
    cbn [map fst app]. f_equal. apply IH.
    intros t Ht'. apply H. now right.
  - cbn [app] in *. apply IH. exact H.
Qed.

(** ** validate_row_totals, row by row *)

Lemma validate_rows_nth (fmt : number_format) (rows : list row) :
  forall (start : nat) (vs : list validation),
    validate_rows fmt start rows = Some vs ->
    List.length vs = List.length rows
    /\ forall (i : nat) (r : row),
         nth_error rows i = Some r ->
         exists v : validation,
           nth_error vs i = Some v
           /\ validate_row fmt (start + i) r = Some v.
Proof.
  induction rows as [|r0 rows IH]; intros start vs H.
  - cbn in H. injection H as <-. split; [reflexivity|].
    intros [|i] r Hr; discriminate.
  - cbn [validate_rows bind] in H.
    destruct (validate_row fmt start r0) as [v0|] eqn:V0; [|discriminate].
    destruct (validate_rows fmt (S start) rows) as [vs0|] eqn:V; [|discriminate].
    injection H as <-. destruct (IH (S start) vs0 V) as [L Hn].
    split; [cbn [List.length]; now rewrite L|].
    intros [|i] r Hr; cbn [nth_error] in *.
    + injection Hr as <-. exists v0. rewrite Nat.add_0_r. auto.
    + destruct (Hn i r Hr) as (v & A & B). exists v.
      rewrite Nat.add_succ_r. auto.
Qed.

Lemma validate_row_exact (fmt : number_format) (row_idx : nat) (r : row) :
  (3 <= List.length (finite_cells r fmt))%nat ->
  fits (finite_cells r fmt) = true ->
  exists (parts : list finite) (total part_sum : finite),
    finite_cells r fmt = parts ++ [total]
    /\ let e := least_exponent (finite_cells r fmt) in
       units e part_sum = total_units e parts
       /\ (total_units e parts = units e total
           /\ validate_row fmt row_idx r
              = Some (Pass row_idx (to_str (Fin total))
                        (to_str (Fin part_sum)))
           \/ total_units e parts <> units e total
              /\ exists diff : finite,
                   d_sign diff = false
                   /\ units e diff
                      = Z.abs (total_units e parts - units e total)
                   /\ validate_row fmt row_idx r
                      = Some (Mismatch row_idx (to_str (Fin total))
                                (to_str (Fin part_sum))
                                (to_str (Fin diff)))).
Proof.
  intros Hlen Hfit.
  destruct (numeric_cells_finite r fmt) as [Hn Hneg].
  destruct (@exists_last _ (finite_cells r fmt)) as (parts & total & E).
  { intros Z0. rewrite Z0 in Hlen. cbn in Hlen. lia. }
  rewrite E in *.
  assert (L2 : (2 <= List.length parts)%nat).
  { rewrite length_app in Hlen. cbn [List.length] in Hlen. lia. }
  destruct (@validate_row_fits fmt row_idx r parts total Hn Hneg L2 Hfit)
    as (part_sum & _ & U & V).
  exists parts, total, part_sum. split; [reflexivity|]. cbv zeta.
  split; [exact U | exact V].
Qed.

(** ** Number normalisation *)



(** Claim C3.  A number wrapped in parentheses normalises to the same result
    as the same text with a leading minus sign, whatever the text between
    the parentheses and whichever the format; under the comma-thousands
    format both "(1,234.50)" and "-1,234.50" give "-1234.50". *)
Theorem parenthetical_negative_is_minus_prefixed :
  (forall (body : str) (fmt : number_format),
     normalize_number_string (Some (lit "(" ++ body ++ lit ")")) fmt
     = normalize_number_string (Some (lit "-" ++ body)) fmt)
  /\ normalize_number_string (Some (lit "(1,234.50)")) en
     = Some (lit "-1234.50")
  /\ normalize_number_string (Some (lit "-1,234.50")) en
     = Some (lit "-1234.50").
Proof.
  split; [|split].
  - intros body fmt. exact (parenthetical_law body fmt).
  - vm_compute. reflexivity.
  - vm_compute. reflexivity.
Qed.

(** A currency symbol inside the parentheses is not removed, since the
    currency prefix is only looked for at the start of the cell: such a
    cell is rejected. *)
Lemma currency_inside_parentheses_is_rejected :
  normalize_number_string (Some (lit "($1,234.50)")) en = None.
Proof. vm_compute. reflexivity. Qed.

(** A cell without a decimal digit is rejected by the first test of
    [normalize_number_string], whatever else it holds. *)
Lemma normalize_without_digit (text : str) (fmt : number_format) :
  is_match (re_search d (strip text)) = false ->
  normalize_number_string (Some text) fmt = None.
Proof.
  intros H. unfold normalize_number_string. rewrite H.
  now rewrite orb_true_r.
Qed.

(** Claim C4, as the code has it.  A cell that is a lone hyphen, en dash or
    em dash holds no digit, so [normalize_number_string] returns [None] for
    it under either format: the test for a digit comes before the line that
    would map a lone dash to "0". *)
Theorem lone_dash_is_rejected (fmt : number_format) :
  normalize_number_string (Some (lit "-")) fmt = None
  /\ normalize_number_string (Some [EM_DASH]) fmt = None
  /\ normalize_number_string (Some [EN_DASH]) fmt = None.
Proof.
  repeat apply conj; apply normalize_without_digit; vm_compute; reflexivity.
Qed.




(** ** Number-format detection *)

(** Claim C5.  [detect_number_format] answers ['en'] on the pool
    ["1,234.56", "2,500.00"], ['es'] on ["1.234,56", "2.500,00"], and ['en']
    whenever the two evidence counts are equal, which covers the empty pool
    and a pool that yields no evidence at all. *)
Theorem detect_number_format_votes :
  detect_number_format [Some (lit "1,234.56"); Some (lit "2,500.00")] = en
  /\ detect_number_format [Some (lit "1.234,56"); Some (lit "2.500,00")] = es
  /\ detect_number_format [] = en
  /\ detect_number_format [Some (lit "Revenue"); None; Some (lit "n/a")] = en
  /\ detect_number_format [Some (lit "1,234.56"); Some (lit "1.234,56")] = en
  /\ forall cells : list cell,
       fst (evidence cells) = snd (evidence cells) ->
       detect_number_format cells = en.
Proof.
  do 5 (split; [vm_compute; reflexivity|]).
  intros cells H. unfold detect_number_format.
  destruct (evidence cells) as [en_evidence es_evidence].
  cbn [fst snd] in H. subst es_evidence.
  now rewrite Nat.ltb_irrefl.
Qed.

(** ** Artifact columns *)





(** ** Row totals *)



(** ** Footnote rows *)

(** Claim C9, as the code has it.  A row with no non-blank cell is
    classified as a footnote row: [is_footnote_row] returns [True] for it
    before it looks at any pattern. *)
Theorem empty_row_is_footnote_row (r : row) :
  forallb (fun c => negb (has_text c)) r = true ->
  is_footnote_row r = true.
Proof.
  intros H. unfold is_footnote_row.
  replace (filter has_text r) with (@nil cell); [reflexivity|].
  induction r as [|c r IH]; [reflexivity|].
  simpl in H. apply andb_true_iff in H as [Hc Hr].
  simpl. destruct (has_text c); [discriminate|]. now apply IH.
Qed.

Lemma empty_row_is_footnote_row_witness :
  is_footnote_row [None; Some (lit "  "); Some []] = true.
Proof.
  apply empty_row_is_footnote_row. vm_compute. reflexivity.
Defined.

(** The specification's reading of C9 fails on the row [None, "  "]. *)
Lemma empty_row_counterexample :
  forallb (fun c => negb (has_text c)) [None; Some (lit "  ")] = true
  /\ is_footnote_row [None; Some (lit "  ")] = true.
Proof.
  split; vm_compute; reflexivity.
Qed.
